(** * Legacy Tree: the family data model, its mutation algebra and the
      deterministic parts of the layout engine

    Shallow embedding of
    - [types.ts] / [constants.ts]  (FamilyMember, INITIAL_DATA),
    - [App.tsx]                    (calculateDegree, updateNode, deleteNode,
                                    handleDeleteMember, addParentToNode,
                                    addSpouseToNode and their handlers),
    - [components/LegacyTree.tsx]  (getRandomOffset, toggleSpouse,
                                    perturbNodes, the separation callbacks,
                                    transformData, the spouse-tree width and
                                    the link paths).

    Conventions.
    - A JavaScript string is a Rocq [string]; a character is its code unit
      (the ids, years and tags of this program are ASCII).
    - An optional property ([relationship?], [parents?], [spouse?]) is an
      [option]; [None] is [undefined].  An empty array ([Some []]) is a
      different value from a missing one and is truthy, as in JavaScript.
    - Object identity is not part of a [FamilyMember] value; where the source
      compares references ([deleteNode]) the result type records it.
    - Effects ([Date.now], [Math.random], [alert], [console.*]) are threaded
      through a small state monad over a [World]. *)

From Stdlib Require Import Ascii String QArith Qminmax Lqa.
From stdpp Require Import base option list strings gmap pretty.

Local Open Scope string_scope.
Local Open Scope list_scope.
Local Open Scope Z_scope.

#[local] Set Warnings "-clear-no-such-hyp".

(** ** types.ts *)

#[local] Unset Elimination Schemes.
Inductive FamilyMember : Type := mkFamilyMember {
  id : string;
  name : string;
  year : string;
  imageUrl : string;
  relationship : option string;
  parents : option (list FamilyMember);
  spouse : option FamilyMember
}.
#[local] Set Elimination Schemes.

(** ** constants.ts *)

Definition INITIAL_DATA : FamilyMember :=
  {| id := "root";
     name := "Samuel Legacy";
     year := "1955";
     imageUrl := "https://picsum.photos/id/1062/200/200";
     relationship := None;
     parents := Some [
       {| id := "p1";
          name := "Eleanor Rigby";
          year := "1925";
          imageUrl := "https://picsum.photos/id/338/200/200";
          relationship := Some "Mother";
          parents := Some [
            {| id := "gp1";
               name := "Father Rigby";
               year := "1899";
               imageUrl := "https://picsum.photos/id/1005/200/200";
               relationship := Some "Grandfather";
               parents := None;
               spouse := None |} ];
          spouse := None |};
       {| id := "p2";
          name := "Arthur Legacy";
          year := "1928";
          imageUrl := "https://picsum.photos/id/1025/200/200";
          relationship := Some "Father";
          parents := Some [];
          spouse := None |} ];
     spouse := None |}.

(** ** App.tsx: calculateDegree *)

(** [p => p.id === targetId] *)
Definition hasId (targetId : string) (p : FamilyMember) : bool :=
  bool_decide (id p = targetId).

(** The closure [traverse] updates the captured counter [degree]; here the
    counter is passed in and returned.  The statements run in source order:
    own outgoing references, then the parents array ([some] before
    [forEach]), then the spouse. *)
Fixpoint traverse (targetId : string) (node : FamilyMember) (degree : nat)
  {struct node} : nat :=
  let degree :=
    if hasId targetId node then
      let degree :=
        match parents node with
        | Some ps => (degree + length ps)%nat
        | None => degree
        end in
      match spouse node with
      | Some _ => (degree + 1)%nat
      | None => degree
      end
    else degree in
  let degree :=
    match parents node with
    | Some ps =>
        let degree :=
          if existsb (hasId targetId) ps then (degree + 1)%nat else degree in
        foldl (fun degree p => traverse targetId p degree) degree ps
    | None => degree
    end in
  match spouse node with
  | Some s =>
      let degree :=
        if hasId targetId s then (degree + 1)%nat else degree in
      traverse targetId s degree
  | None => degree
  end.

Definition calculateDegree (root : FamilyMember) (targetId : string) : nat :=
  traverse targetId root 0%nat.

(** ** The environment of the handlers

    [Date.now()] and [Math.random()] read the environment; [alert] and the
    [console] functions write to it.  The [n]-th read of the clock returns
    [dateNow n]; the [n]-th read of the generator returns [mathRandom n],
    the text of [Math.random().toString(36).substr(2, 9)]. *)

Inductive Notice : Type :=
| Alert (msg : string)
| ConsoleWarn (msg : string)
| ConsoleLog (msg : string)
| ConsoleError (msg : string).

Record World : Type := mkWorld {
  dateNow : nat -> Z;
  mathRandom : nat -> string;
  clockReads : nat;
  randomReads : nat;
  notices : list Notice
}.

Definition M (A : Type) : Type := World -> A * World.

#[export] Instance M_ret : MRet M := fun A (a : A) w => (a, w).

#[export] Instance M_bind : MBind M := fun A B (k : A -> M B) (c : M A) w =>
  let (a, w') := c w in k a w'.

Definition Date_now : M Z := fun w =>
  (dateNow w (clockReads w),
   {| dateNow := dateNow w; mathRandom := mathRandom w;
      clockReads := S (clockReads w); randomReads := randomReads w;
      notices := notices w |}).

Definition Math_random_base36 : M string := fun w =>
  (mathRandom w (randomReads w),
   {| dateNow := dateNow w; mathRandom := mathRandom w;
      clockReads := clockReads w; randomReads := S (randomReads w);
      notices := notices w |}).

Definition emit (n : Notice) : M unit := fun w =>
  (tt,
   {| dateNow := dateNow w; mathRandom := mathRandom w;
      clockReads := clockReads w; randomReads := randomReads w;
      notices := notices w ++ [n] |}).

Definition alert (msg : string) : M unit := emit (Alert msg).

(** ** Numbers that the tree code computes with

    [parseInt] without a radix, on code units: leading white space, an
    optional sign, an optional [0x]/[0X] prefix, then the longest run of
    digits; [None] is [NaN].  The result is the exact integer, which is what
    the JavaScript number holds on the safe range [|n| <= 2^53 - 1]. *)

Definition isWhiteSpace (c : ascii) : bool :=
  let n := Z.of_N (Ascii.N_of_ascii c) in
  (9 <=? n) && (n <=? 13) || (n =? 32) || (n =? 160).

Fixpoint trimStart (s : string) : string :=
  match s with
  | String c s' => if isWhiteSpace c then trimStart s' else s
  | EmptyString => s
  end.

Definition digitValue (c : ascii) : option Z :=
  let n := Z.of_N (Ascii.N_of_ascii c) in
  if (48 <=? n) && (n <=? 57) then Some (n - 48)
  else if (97 <=? n) && (n <=? 122) then Some (n - 87)
  else if (65 <=? n) && (n <=? 90) then Some (n - 55)
  else None.

Fixpoint parseDigits (radix : Z) (s : string) (acc : option Z) : option Z :=
  match s with
  | String c s' =>
      match digitValue c with
      | Some d =>
          if d <? radix
          then parseDigits radix s' (Some (default 0 acc * radix + d))
          else acc
      | None => acc
      end
  | EmptyString => acc
  end.

Definition parseInt (s : string) : option Z :=
  let s := trimStart s in
  let '(sign, s) :=
    match s with
    | String "-"%char s' => (-1, s')
    | String "+"%char s' => (1, s')
    | _ => (1, s)
    end in
  let '(radix, s) :=
    match s with
    | String "0"%char (String "x"%char s') => (16, s')
    | String "0"%char (String "X"%char s') => (16, s')
    | _ => (10, s)
    end in
  match parseDigits radix s None with
  | Some n => Some (sign * n)
  | None => None
  end.


(** [`${n}`] for a number [n] that is [NaN] or a safe integer. *)
Definition numberToString (n : option Z) : string :=
  match n with
  | Some z => pretty z
  | None => "NaN"
  end.

(** [n - k] on numbers; [NaN] is absorbing. *)
Definition minus (n : option Z) (k : Z) : option Z :=
  match n with
  | Some z => Some (z - k)
  | None => None
  end.

(** [n + k] on numbers; [NaN] is absorbing. *)
Definition plus (n : option Z) (k : Z) : option Z :=
  match n with
  | Some z => Some (z + k)
  | None => None
  end.

(** ** App.tsx: updateNode *)

(** [Partial<FamilyMember>]: a key is absent ([None]) or present with a
    value; an optional property may be present with the value
    [undefined]. *)
Record Updates : Type := mkUpdates {
  u_id : option string;
  u_name : option string;
  u_year : option string;
  u_imageUrl : option string;
  u_relationship : option (option string);
  u_parents : option (option (list FamilyMember));
  u_spouse : option (option FamilyMember)
}.

(** [{ ...tree, ...updates }] *)
Definition spread (tree : FamilyMember) (updates : Updates) : FamilyMember :=
  {| id := default (id tree) (u_id updates);
     name := default (name tree) (u_name updates);
     year := default (year tree) (u_year updates);
     imageUrl := default (imageUrl tree) (u_imageUrl updates);
     relationship := default (relationship tree) (u_relationship updates);
     parents := default (parents tree) (u_parents updates);
     spouse := default (spouse tree) (u_spouse updates) |}.

(** [{ ...tree, spouse: updatedSpouse, parents: updatedParents }] *)
Definition withLinks (tree : FamilyMember)
    (updatedSpouse : option FamilyMember)
    (updatedParents : option (list FamilyMember)) : FamilyMember :=
  {| id := id tree; name := name tree; year := year tree;
     imageUrl := imageUrl tree; relationship := relationship tree;
     parents := updatedParents; spouse := updatedSpouse |}.

Fixpoint updateNode (tree : FamilyMember) (targetId : string)
    (updates : Updates) {struct tree} : FamilyMember :=
  if hasId targetId tree then spread tree updates
  else
    let updatedSpouse :=
      match spouse tree with
      | Some s =>
          if hasId targetId s then Some (spread s updates)
          else Some (updateNode s targetId updates)
      | None => None
      end in
    let updatedParents :=
      match parents tree with
      | Some (p :: ps) =>
          Some ((fun p => updateNode p targetId updates) <$> (p :: ps))
      | other => other
      end in
    withLinks tree updatedSpouse updatedParents.

Definition handleUpdateMember (targetId : string) (updates : Updates)
    (data : FamilyMember) : FamilyMember :=
  updateNode data targetId updates.

(** ** App.tsx: deleteNode *)

(** What [deleteNode] hands back: [null], the argument itself (the same
    reference, [res === tree]), or a newly built object. *)
Inductive Deleted : Type :=
| Null
| Same
| Rebuilt (tree : FamilyMember).

(** The object a non-null result denotes, given the argument. *)
Definition resultOf (tree : FamilyMember) (res : Deleted)
  : option FamilyMember :=
  match res with
  | Null => None
  | Same => Some tree
  | Rebuilt t => Some t
  end.

Fixpoint deleteNode (tree : FamilyMember) (targetId : string)
  {struct tree} : Deleted :=
  if hasId targetId tree then Null
  else
    (* (updatedSpouse, updatedSpouse !== tree.spouse) *)
    let '(updatedSpouse, spouseChanged) :=
      match spouse tree with
      | Some s =>
          match deleteNode s targetId with
          | Null => (None, true)
          | Rebuilt s' => (Some s', true)
          | Same => (Some s, false)
          end
      | None => (None, false)
      end in
    (* (updatedParents, updatedParents !== tree.parents) *)
    let '(updatedParents, parentsChanged) :=
      match parents tree with
      | Some (p :: ps) =>
          let '(newParents, changed) :=
            foldl (fun '(newParents, changed) q =>
                     match deleteNode q targetId with
                     | Null => (newParents, true)
                     | Rebuilt q' => (newParents ++ [q'], true)
                     | Same => (newParents ++ [q], changed)
                     end) ([], false) (p :: ps) in
          if changed then (Some newParents, true)
          else (parents tree, false)
      | other => (other, false)
      end in
    if spouseChanged || parentsChanged
    then Rebuilt (withLinks tree updatedSpouse updatedParents)
    else Same.

(** ** App.tsx: the component state and handleDeleteMember *)

(** [data] and [editingMember]; of the member under edit the handlers use
    the id only. *)
Record AppState : Type := mkAppState {
  data : FamilyMember;
  editingMember : option string
}.

Definition handleDeleteMember (targetId : string) (st : AppState)
  : M AppState :=
  if bool_decide (targetId = id (data st)) then
    _ ← alert "Cannot delete the root person of the tree.";
    mret st
  else
    let degree := calculateDegree (data st) targetId in
    if (1 <? degree)%nat then
      _ ← emit (ConsoleWarn
                 ("Attempted to delete member " +:+ targetId +:+
                  " with degree " +:+ pretty degree +:+
                  ". Action blocked."));
      mret st
    else
      _ ← emit (ConsoleLog ("Deleting member: " +:+ targetId));
      match resultOf (data st) (deleteNode (data st) targetId) with
      | Some newData =>
          mret {| data := newData; editingMember := None |}
      | None =>
          _ ← emit (ConsoleError
                     "Failed to generate new tree data after deletion.");
          mret st
      end.

(** [canDelete], as computed for the edit dialog. *)
Definition canDelete (st : AppState) : bool :=
  match editingMember st with
  | Some eid =>
      negb (bool_decide (eid = id (data st)))
      && (calculateDegree (data st) eid =? 1)%nat
  | None => false
  end.

(** ** App.tsx: addParentToNode *)

(** The object literal [newParent], for the clock value [now] and the text
    [rnd] of the random number. *)
Definition newParent (current : FamilyMember) (now : Z) (rnd : string)
  : FamilyMember :=
  {| id := "new-" +:+ pretty now +:+ "-" +:+ rnd;
     name := "New Ancestor";
     year := numberToString (minus (parseInt (year current)) 25);
     imageUrl := "https://picsum.photos/200";
     relationship := Some "Parent";
     parents := Some [];
     spouse := None |}.

Fixpoint addParentToNode (current : FamilyMember) (targetId : string)
  {struct current} : M FamilyMember :=
  if hasId targetId current then
    now ← Date_now;
    rnd ← Math_random_base36;
    let newParent := newParent current now rnd in
    mret (withLinks current (spouse current)
           (Some (default [] (parents current) ++ [newParent])))
  else
    updatedSpouse ←
      match spouse current with
      | Some s =>
          s' ← addParentToNode s targetId; mret (Some s')
      | None => mret None
      end;
    updatedParents ←
      match parents current with
      | Some (p :: ps) =>
          ps' ← mapM (fun p => addParentToNode p targetId) (p :: ps);
          mret (Some ps')
      | other => mret other
      end;
    mret (withLinks current updatedSpouse updatedParents).

(** ** App.tsx: addSpouseToNode *)

(** The object literal given to [spouse], for the clock value [now]. *)
Definition newSpouse (current : FamilyMember) (now : Z) : FamilyMember :=
  {| id := "spouse-" +:+ pretty now;
     name := "New Spouse";
     year := year current;
     imageUrl := "https://picsum.photos/200";
     relationship := Some "Spouse";
     parents := Some [];
     spouse := None |}.

Fixpoint addSpouseToNode (current : FamilyMember) (targetId : string)
  {struct current} : M FamilyMember :=
  if hasId targetId current then
    match spouse current with
    | Some _ =>
        _ ← alert "This member already has a spouse.";
        mret current
    | None =>
        now ← Date_now;
        mret (withLinks current (Some (newSpouse current now))
               (parents current))
    end
  else
    updatedSpouse ←
      match spouse current with
      | Some s =>
          s' ← addSpouseToNode s targetId; mret (Some s')
      | None => mret None
      end;
    updatedParents ←
      match parents current with
      | Some (p :: ps) =>
          ps' ← mapM (fun p => addSpouseToNode p targetId) (p :: ps);
          mret (Some ps')
      | other => mret other
      end;
    mret (withLinks current updatedSpouse updatedParents).

Definition handleAddParent (targetId : string) (st : AppState) : M AppState :=
  newData ← addParentToNode (data st) targetId;
  mret {| data := newData; editingMember := editingMember st |}.

Definition handleAddSpouse (targetId : string) (st : AppState) : M AppState :=
  newData ← addSpouseToNode (data st) targetId;
  mret {| data := newData; editingMember := editingMember st |}.

(** ** App.tsx: handleAddChild *)

(** The object literal [newRoot], for the tree [tree] held in [data] and
    the clock value [now]; its single parent is [{ ...data, relationship:
    "Parent" }]. *)
Definition newRoot (tree : FamilyMember) (now : Z) : FamilyMember :=
  {| id := "child-" +:+ pretty now;
     name := "New Descendant";
     year := numberToString (plus (parseInt (year tree)) 25);
     imageUrl := "https://picsum.photos/200";
     relationship := None;
     parents := Some [ {| id := id tree; name := name tree;
                          year := year tree; imageUrl := imageUrl tree;
                          relationship := Some "Parent";
                          parents := parents tree;
                          spouse := spouse tree |} ];
     spouse := None |}.

Definition handleAddChild (targetId : string) (st : AppState) : M AppState :=
  if bool_decide (targetId = id (data st)) then
    now ← Date_now;
    mret {| data := newRoot (data st) now;
            editingMember := editingMember st |}
  else
    _ ← alert "In this view, you can only extend descendants from the root of the tree.";
    mret st.

(** ** components/LegacyTree.tsx

    A JavaScript number that is not a 32-bit integer is an exact rational
    here: sums, products and quotients are the real ones, where the source
    rounds to a double. *)

Module LegacyTree.

Local Open Scope Q_scope.

(** [D3MemberWithLayout]; [spouseTreeLayout] and the [x], [y] that d3 may
    inject are not read by the functions below and are left out. *)
#[local] Unset Elimination Schemes.
Inductive D3MemberWithLayout : Type := mkD3Member {
  id : string;
  name : string;
  year : string;
  imageUrl : string;
  relationship : option string;
  children : option (list D3MemberWithLayout);
  spouse : option D3MemberWithLayout;
  spouseTreeWidth : option Q
}.
#[local] Set Elimination Schemes.

(** [d3.HierarchyPointNode<D3MemberWithLayout>].  Nodes are objects and
    [a.parent === b.parent] compares references: [parent] is the handle of
    the parent node, [None] for the root of a hierarchy. *)
Record HierarchyPointNode : Type := mkNode {
  data : D3MemberWithLayout;
  depth : nat;
  parent : option nat;
  x : Q;
  y : Q
}.

(** *** getRandomOffset *)

(** ToInt32 and ToUint32 of an integer. *)
Definition toInt32 (z : Z) : Z := ((z + 2 ^ 31) mod 2 ^ 32 - 2 ^ 31)%Z.
Definition toUint32 (z : Z) : Z := (z mod 2 ^ 32)%Z.

(** [Math.imul] *)
Definition imul (a b : Z) : Z := toInt32 (toInt32 a * toInt32 b).

(** [str.charCodeAt(i)] *)
Definition charCode (c : ascii) : Z := Z.of_N (N_of_ascii c).

(** The body of the [for] loop over the code units of [str]. *)
Fixpoint hashLoop (str : string) (h : Z) : Z :=
  match str with
  | String c str' =>
      let h := Z.lxor (toInt32 h) (toInt32 (charCode c)) in
      let h := imul h 0x01000193 in
      hashLoop str' h
  | EmptyString => h
  end.

Definition getRandomOffset (id seedStr : string) : Q :=
  let h := 0x811c9dc5%Z in
  let str := id +:+ seedStr in
  let h := hashLoop str h in
  let h := toUint32 h in
  let float := inject_Z h / 4294967296 in
  (float - 0.5) * 2.

(** *** toggleSpouse

    [expandedSpouseIds] is component state; the function computes the set
    that [setExpandedSpouseIds] stores. *)
Definition toggleSpouse (id : string) (expandedSpouseIds : gset string)
  : gset string :=
  let newSet := expandedSpouseIds in
  if decide (id ∈ newSet) then newSet ∖ {[ id ]} else newSet ∪ {[ id ]}.

(** *** perturbNodes

    [forEach] updates [x] and [y] of every node in place; the list of the
    updated nodes is returned. *)
Definition perturbNode (node : HierarchyPointNode) : HierarchyPointNode :=
  let magnitude := if Nat.eqb (depth node) 0 then 0 else 1 in
  let ox := getRandomOffset (id (data node)) "x" * 20 * magnitude in
  let oy := getRandomOffset (id (data node)) "y" * 15 * magnitude in
  {| data := data node; depth := depth node; parent := parent node;
     x := x node + ox; y := y node + oy |}.

Fixpoint perturbNodes (nodes : list HierarchyPointNode)
  : list HierarchyPointNode :=
  match nodes with
  | [] => []
  | node :: nodes' => perturbNode node :: perturbNodes nodes'
  end.

(** *** The separation callbacks *)

(** [w || 0] for an optional number. *)
Definition orZero (w : option Q) : Q :=
  match w with
  | Some q => q
  | None => 0
  end.

(** The callback given to [d3.tree().separation] for the main tree. *)
Definition separation (a b : HierarchyPointNode) : Q :=
  let aSpouseWidth := orZero (spouseTreeWidth (data a)) in
  let bSpouseWidth := orZero (spouseTreeWidth (data b)) in
  let extraSpace := (aSpouseWidth + bSpouseWidth) / 270 in
  let sep := if decide (parent a = parent b) then 1.1 else 1.3 in
  let sep := if spouse (data a) is Some _ then sep + 0.8 else sep in
  let sep := if spouse (data b) is Some _ then sep + 0.8 else sep in
  sep + extraSpace.

(** The callback inside [calculateSpouseTreeLayout]. *)
Definition spouseTreeSeparation (a b : HierarchyPointNode) : Q :=
  let aSpouseWidth := orZero (spouseTreeWidth (data a)) in
  let bSpouseWidth := orZero (spouseTreeWidth (data b)) in
  let extraSpace := (aSpouseWidth + bSpouseWidth) / 270 in
  let sep := if decide (parent a = parent b) then 1.1 else 1.3 in
  let sep := if spouse (data a) is Some _ then sep + 0.8 else sep in
  let sep := if spouse (data b) is Some _ then sep + 0.8 else sep in
  sep + extraSpace.

End LegacyTree.


(** ** components/LegacyTree.tsx: transformData *)

Fixpoint transformData (member : FamilyMember)
  : LegacyTree.D3MemberWithLayout :=
  {| LegacyTree.id := id member;
     LegacyTree.name := name member;
     LegacyTree.year := year member;
     LegacyTree.imageUrl := imageUrl member;
     LegacyTree.relationship := relationship member;
     LegacyTree.spouse :=
       match spouse member with
       | Some s => Some (transformData s)
       | None => None
       end;
     LegacyTree.children :=
       match parents member with
       | Some ps => Some (transformData <$> ps)
       | None => None
       end;
     LegacyTree.spouseTreeWidth := None |}.

(** ** components/LegacyTree.tsx: the width of a spouse tree

    Step 4 of [calculateSpouseTreeLayout]: the loop [layoutRoot.each] over
    the laid-out nodes and the choice of [totalWidth].  The pair
    [(minX, maxX)] starts at [(Infinity, -Infinity)], which is [None]; after
    one node both are numbers. *)

Local Open Scope Q_scope.

(** A number is truthy when it is not 0. *)
Definition truthyWidth (w : option Q) : option Q :=
  match w with
  | Some q => if Qeq_bool q 0 then None else Some q
  | None => None
  end.

Definition widthStep (bounds : option (Q * Q))
    (d : LegacyTree.HierarchyPointNode) : option (Q * Q) :=
  let x := LegacyTree.x d in
  let '(minX, maxX) :=
    match bounds with
    | Some (minX, maxX) => (Qmin minX x, Qmax maxX x)
    | None => (x, x)
    end in
  let maxX :=
    match truthyWidth (LegacyTree.spouseTreeWidth (LegacyTree.data d)) with
    | Some w => Qmax maxX (x + 220 + w)
    | None =>
        if LegacyTree.spouse (LegacyTree.data d) is Some _
        then Qmax maxX (x + 220)
        else maxX
    end in
  Some (minX, maxX).

Definition totalWidth (nodes : list LegacyTree.HierarchyPointNode) : Q :=
  match foldl widthStep None nodes with
  | Some (minX, maxX) => maxX - minX
  | None => 270
  end.

(** ** components/LegacyTree.tsx: the link paths of renderTreeRecursive *)

(** [d3.HierarchyPointLink] *)
Record HierarchyPointLink : Type := mkLink {
  source : LegacyTree.HierarchyPointNode;
  target : LegacyTree.HierarchyPointNode
}.

(** The numbers that the template of [generateWavyPath] prints, in order:
    [M x y C x y, x y, x y]. *)
Record CubicPath : Type := mkCubicPath {
  c_moveTo : Q * Q;
  c_control1 : Q * Q;
  c_control2 : Q * Q;
  c_lineEnd : Q * Q
}.

Definition generateWavyPath (originX originY : Q) (isMainTree : bool)
    (d : HierarchyPointLink) : CubicPath :=
  let sx := originX + LegacyTree.x (source d) in
  let sy := originY + (if isMainTree then - LegacyTree.y (source d)
                       else LegacyTree.y (source d)) in
  let tx := originX + LegacyTree.x (target d) in
  let ty := originY + (if isMainTree then - LegacyTree.y (target d)
                       else LegacyTree.y (target d)) in
  let seed := LegacyTree.id (LegacyTree.data (target d)) +:+
              LegacyTree.id (LegacyTree.data (source d)) in
  let midY := (sy + ty) / 2 in
  let controlOffset := LegacyTree.getRandomOffset seed "curve" * 30 in
  if Qlt_le_dec tx sx then
    {| c_moveTo := (tx, ty);
       c_control1 := (tx, midY - controlOffset);
       c_control2 := (sx, midY + controlOffset);
       c_lineEnd := (sx, sy) |}
  else
    {| c_moveTo := (sx, sy);
       c_control1 := (sx, midY + controlOffset);
       c_control2 := (tx, midY - controlOffset);
       c_lineEnd := (tx, ty) |}.

(** The direction in which a node's spouse is placed. *)
Definition spouseDirection (isMainTree : bool) (parentDirection : Z)
    (d : LegacyTree.HierarchyPointNode) : Z :=
  let direction := parentDirection in
  if isMainTree then (if Qlt_le_dec (LegacyTree.x d) 0 then -1 else 1)%Z
  else direction.

Definition spouseOffset (direction : Z)
    (spouse : LegacyTree.D3MemberWithLayout) : Q :=
  let spouseRandX := LegacyTree.getRandomOffset (LegacyTree.id spouse) "sx"
                     * 10 in
  220 * inject_Z direction + spouseRandX.

Definition spouseOffsetY (spouse : LegacyTree.D3MemberWithLayout) : Q :=
  LegacyTree.getRandomOffset (LegacyTree.id spouse) "sy" * 10.

(** The numbers that the template of [pathD] prints, in order:
    [M x y Q x y x y]. *)
Record QuadraticPath : Type := mkQuadraticPath {
  q_moveTo : Q * Q;
  q_control : Q * Q;
  q_lineEnd : Q * Q
}.

Definition pathD (direction : Z) (spouse : LegacyTree.D3MemberWithLayout)
  : QuadraticPath :=
  let startX := if (direction =? -1)%Z then (-50)%Q else 50%Q in
  let endX := spouseOffset direction spouse +
              (if (direction =? -1)%Z then 50%Q else (-50)%Q) in
  let curveY := 30 + LegacyTree.getRandomOffset (LegacyTree.id spouse) "sc"
                     * 15 in
  let midX := (startX + endX) / 2 in
  if (direction =? -1)%Z then
    {| q_moveTo := (endX, spouseOffsetY spouse);
       q_control := (midX, curveY);
       q_lineEnd := (startX, 0) |}
  else
    {| q_moveTo := (startX, 0);
       q_control := (midX, curveY);
       q_lineEnd := (endX, spouseOffsetY spouse) |}.

Local Close Scope Q_scope.

(** ** Vocabulary of the statements

    Positions, ids and node content, used to state what the operations do;
    none of this is in the source. *)

(** One step down from a node: to its spouse, or to entry [i] of its
    parents array. *)
Inductive Edge : Type :=
| ViaSpouse
| ViaParent (i : nat).

Definition child (t : FamilyMember) (e : Edge) : option FamilyMember :=
  match e with
  | ViaSpouse => spouse t
  | ViaParent i => ps ← parents t; ps !! i
  end.

(** The node reached from [t] along a path of edges. *)
Fixpoint nodeAt (t : FamilyMember) (path : list Edge) : option FamilyMember :=
  match path with
  | [] => Some t
  | e :: path' => c ← child t e; nodeAt c path'
  end.

(** Every id of the structure: the node, its spouse subtree, its parents'
    subtrees. *)
Fixpoint allIds (t : FamilyMember) : list string :=
  id t ::
  match spouse t with Some s => allIds s | None => [] end ++
  match parents t with Some ps => ps ≫= allIds | None => [] end.

(** The data-model invariant: ids are unique across the whole structure. *)
Definition uniqueIds (t : FamilyMember) : Prop := NoDup (allIds t).

(** What a node holds itself: its fields, the ids of its parents in order
    and the id of its spouse. *)
Record Content : Type := mkContent {
  c_id : string;
  c_name : string;
  c_year : string;
  c_imageUrl : string;
  c_relationship : option string;
  c_parents : option (list string);
  c_spouse : option string
}.

Definition content (t : FamilyMember) : Content :=
  {| c_id := id t; c_name := name t; c_year := year t;
     c_imageUrl := imageUrl t; c_relationship := relationship t;
     c_parents := fmap (M := list) id <$> parents t;
     c_spouse := id <$> spouse t |}.

(** A patch over the display fields [name], [year], [imageUrl],
    [relationship]. *)
Definition displayPatch (u : Updates) : Prop :=
  u_id u = None /\ u_parents u = None /\ u_spouse u = None.

(** [n'] is [n] with the display fields that the patch [u] sets replaced
    by the values of [u], and with everything else (id, parents, spouse) as
    in [n]. *)
Definition mergedWith (n : FamilyMember) (u : Updates) (n' : FamilyMember)
  : Prop :=
  id n' = id n /\
  name n' = match u_name u with Some v => v | None => name n end /\
  year n' = match u_year u with Some v => v | None => year n end /\
  imageUrl n' =
    match u_imageUrl u with Some v => v | None => imageUrl n end /\
  relationship n' =
    match u_relationship u with Some v => v | None => relationship n end /\
  parents n' = parents n /\
  spouse n' = spouse n.

(** [{}] *)
Definition emptyPatch : Updates :=
  {| u_id := None; u_name := None; u_year := None; u_imageUrl := None;
     u_relationship := None; u_parents := None; u_spouse := None |}.

(** [path] exists in [t] and no node strictly above its end carries
    [targetId]: the recursive searches reach the end of the path. *)
Fixpoint clearPath (targetId : string) (t : FamilyMember) (path : list Edge)
  : Prop :=
  match path with
  | [] => True
  | e :: path' =>
      id t <> targetId /\
      match child t e with
      | Some c => clearPath targetId c path'
      | None => False
      end
  end.


(** The synthetic spouse of [target]. *)
Definition syntheticSpouse (target s : FamilyMember) : Prop :=
  name s = "New Spouse" /\ year s = year target /\
  relationship s = Some "Spouse" /\
  imageUrl s = "https://picsum.photos/200" /\
  parents s = Some [] /\ spouse s = None.

(** [t] with the node below edge [e] replaced by [c']. *)
Definition withChild (t : FamilyMember) (e : Edge) (c' : FamilyMember)
  : FamilyMember :=
  match e with
  | ViaSpouse => withLinks t (Some c') (parents t)
  | ViaParent k =>
      withLinks t (spouse t) ((fun l => <[k := c']> l) <$> parents t)
  end.

(** The tree that a result of [deleteNode] denotes, if any. *)
Definition pruned (targetId : string) (t : FamilyMember)
  : option FamilyMember :=
  resultOf t (deleteNode t targetId).

(** The outgoing references of a node: its parents entries and its
    spouse. *)
Definition outgoing (t : FamilyMember) : nat :=
  (length (default [] (parents t)) +
   (if spouse t is Some _ then 1 else 0))%nat.

(** The body of the [for] loop of [deleteNode] over the parents, on the
    pair [(newParents, changed)]. *)
Definition loopBody (targetId : string)
  : list FamilyMember * bool -> FamilyMember -> list FamilyMember * bool :=
  fun '(newParents, changed) q =>
    match deleteNode q targetId with
    | Null => (newParents, true)
    | Rebuilt q' => (newParents ++ [q'], true)
    | Same => (newParents ++ [q], changed)
    end.

(** [res !== p] *)
Definition notSame (res : Deleted) : bool :=
  match res with
  | Same => false
  | _ => true
  end.

(** How far to the right a laid-out node reaches: its own [x], the slot
    of its spouse 220 further, and the width of an expanded spouse tree
    beyond that. *)
Definition reachRight (d : LegacyTree.HierarchyPointNode) : Q :=
  match truthyWidth (LegacyTree.spouseTreeWidth (LegacyTree.data d)) with
  | Some w => Qmax (LegacyTree.x d) (LegacyTree.x d + 220 + w)
  | None =>
      if LegacyTree.spouse (LegacyTree.data d) is Some _
      then Qmax (LegacyTree.x d) (LegacyTree.x d + 220)
      else LegacyTree.x d
  end.

(** The world after one more notice. *)
Definition noticed (n : Notice) (w : World) : World := snd (emit n w).

(** The component state at start-up, with the dialog open on [editing]. *)
Definition seedState (editing : option string) : AppState :=
  {| data := INITIAL_DATA; editingMember := editing |}.

(** A sample environment: a clock that ticks once per read. *)
Definition sampleWorld : World :=
  {| dateNow := fun n => 1700000000000 + Z.of_nat n;
     mathRandom := fun _ => "k3j9x0a1b";
     clockReads := 0; randomReads := 0; notices := [] |}.

(** Eleanor Rigby's node of the seed dataset, at [parents[0]] of the root. *)
Definition seedP1 : FamilyMember :=
  default INITIAL_DATA (nodeAt INITIAL_DATA [ViaParent 0%nat]).

(** The seed dataset after Arthur Legacy got a spouse. *)
Definition seedWithSpouse : FamilyMember :=
  fst (addSpouseToNode INITIAL_DATA "p2" sampleWorld).


(** A sample patch from the edit dialog. *)
Definition samplePatch : Updates :=
  {| u_id := None; u_name := Some "Eleanor R."; u_year := Some "1926";
     u_imageUrl := None; u_relationship := Some (Some "Mum");
     u_parents := None; u_spouse := None |}.

(** Two sample layout nodes, siblings under the node with handle 0. *)
Definition sampleMember (i : string) (s : option LegacyTree.D3MemberWithLayout)
  : LegacyTree.D3MemberWithLayout :=
  {| LegacyTree.id := i; LegacyTree.name := "N"; LegacyTree.year := "1900";
     LegacyTree.imageUrl := "u"; LegacyTree.relationship := None;
     LegacyTree.children := None; LegacyTree.spouse := s;
     LegacyTree.spouseTreeWidth := None |}.

Definition sampleNodeA : LegacyTree.HierarchyPointNode :=
  {| LegacyTree.data := sampleMember "p1" (Some (sampleMember "s1" None));
     LegacyTree.depth := 1; LegacyTree.parent := Some 0%nat;
     LegacyTree.x := (-135)%Q; LegacyTree.y := 300%Q |}.

Definition sampleNodeB : LegacyTree.HierarchyPointNode :=
  {| LegacyTree.data := sampleMember "p2" None;
     LegacyTree.depth := 1; LegacyTree.parent := Some 0%nat;
     LegacyTree.x := 135%Q; LegacyTree.y := 300%Q |}.

(** A sample link between the two sample nodes. *)
Definition sampleLink : HierarchyPointLink :=
  {| source := sampleNodeB; target := sampleNodeA |}.

(** ** Induction over the nested structure *)

Lemma FamilyMember_ind (P : FamilyMember -> Prop) :
  (forall t,
      (forall s, spouse t = Some s -> P s) ->
      (forall ps p, parents t = Some ps -> p ∈ ps -> P p) ->
      P t) ->
  forall t, P t.
Proof.
  intros step. fix IH 1. intros [i n y u r ps s]. apply step; simpl.
  - destruct s as [s0|]; intros s' E; [|discriminate].
    injection E as <-. apply IH.
  - destruct ps as [l|]; intros ps' p E; [|discriminate].
    injection E as <-. revert p.
    induction l as [|q l IHl]; intros p Hin.
    + exfalso. inversion Hin.
    + apply elem_of_cons in Hin as [->|Hin]; [apply IH|apply IHl, Hin].
Qed.

(** ** Unfolding equations *)

Lemma updateNode_eq (tree : FamilyMember) (targetId : string) (u : Updates) :
  updateNode tree targetId u =
  if hasId targetId tree then spread tree u
  else
    withLinks tree
      (match spouse tree with
       | Some s =>
           if hasId targetId s then Some (spread s u)
           else Some (updateNode s targetId u)
       | None => None
       end)
      (match parents tree with
       | Some (p :: ps) =>
           Some ((fun p => updateNode p targetId u) <$> (p :: ps))
       | other => other
       end).
Proof. destruct tree; reflexivity. Qed.

Lemma addParentToNode_eq (current : FamilyMember) (targetId : string) :
  addParentToNode current targetId =
  if hasId targetId current then
    now ← Date_now;
    rnd ← Math_random_base36;
    mret (withLinks current (spouse current)
            (Some (default [] (parents current) ++
                   [newParent current now rnd])))
  else
    updatedSpouse ←
      match spouse current with
      | Some s => s' ← addParentToNode s targetId; mret (Some s')
      | None => mret None
      end;
    updatedParents ←
      match parents current with
      | Some (p :: ps) =>
          ps' ← mapM (fun p => addParentToNode p targetId) (p :: ps);
          mret (Some ps')
      | other => mret other
      end;
    mret (withLinks current updatedSpouse updatedParents).
Proof. destruct current; reflexivity. Qed.

Lemma addSpouseToNode_eq (current : FamilyMember) (targetId : string) :
  addSpouseToNode current targetId =
  if hasId targetId current then
    match spouse current with
    | Some _ =>
        _ ← alert "This member already has a spouse.";
        mret current
    | None =>
        now ← Date_now;
        mret (withLinks current (Some (newSpouse current now))
                (parents current))
    end
  else
    updatedSpouse ←
      match spouse current with
      | Some s => s' ← addSpouseToNode s targetId; mret (Some s')
      | None => mret None
      end;
    updatedParents ←
      match parents current with
      | Some (p :: ps) =>
          ps' ← mapM (fun p => addSpouseToNode p targetId) (p :: ps);
          mret (Some ps')
      | other => mret other
      end;
    mret (withLinks current updatedSpouse updatedParents).
Proof. destruct current; reflexivity. Qed.

Lemma allIds_eq (t : FamilyMember) :
  allIds t =
  id t ::
  match spouse t with Some s => allIds s | None => [] end ++
  match parents t with Some ps => ps ≫= allIds | None => [] end.
Proof. destruct t; reflexivity. Qed.

Lemma withLinks_same (t : FamilyMember) :
  withLinks t (spouse t) (parents t) = t.
Proof. destruct t; reflexivity. Qed.

Lemma spread_emptyPatch (t : FamilyMember) : spread t emptyPatch = t.
Proof. destruct t; reflexivity. Qed.

(** ** Running the monad *)

Lemma run_bind {A B} (c : M A) (k : A -> M B) (w : World) :
  (c ≫= k) w = k (fst (c w)) (snd (c w)).
Proof. unfold mbind, M_bind. destruct (c w); reflexivity. Qed.

Lemma run_ret {A} (a : A) (w : World) : (mret a : M A) w = (a, w).
Proof. reflexivity. Qed.

Section mapM_run.
Context {A B : Type} (f : A -> M B).

Lemma mapM_cons_run (a : A) (l : list A) (w : World) :
  mapM f (a :: l) w =
  (fst (f a w) :: fst (mapM f l (snd (f a w))),
   snd (mapM f l (snd (f a w)))).
Proof. simpl. rewrite !run_bind. reflexivity. Qed.

Lemma mapM_lookup_run (l : list A) (w : World) (i : nat) (a : A) :
  l !! i = Some a ->
  exists w', fst (mapM f l w) !! i = Some (fst (f a w')).
Proof.
  revert w i. induction l as [|b l IH]; intros w i Hi; [done|].
  rewrite mapM_cons_run. destruct i as [|i]; simpl in *.
  - injection Hi as ->. eauto.
  - apply IH. exact Hi.
Qed.

Lemma mapM_app_run (l1 l2 : list A) (w : World) :
  mapM f (l1 ++ l2) w =
  (fst (mapM f l1 w) ++ fst (mapM f l2 (snd (mapM f l1 w))),
   snd (mapM f l2 (snd (mapM f l1 w)))).
Proof.
  revert w. induction l1 as [|a l1 IH]; intros w.
  - simpl. destruct (mapM f l2 w); reflexivity.
  - rewrite <- app_comm_cons, !mapM_cons_run, IH. reflexivity.
Qed.
End mapM_run.

Lemma mapM_fixed (f : FamilyMember -> M FamilyMember)
    (l : list FamilyMember) (w : World) :
  (forall a, a ∈ l -> forall w', f a w' = (a, w')) ->
  mapM f l w = (l, w).
Proof.
  induction l as [|a l IH]; intros Hfix; [reflexivity|].
  rewrite mapM_cons_run, (Hfix a) by left. simpl.
  rewrite IH; [reflexivity|]. intros b Hb. apply Hfix. right. exact Hb.
Qed.

(** Only the entry in the middle is touched. *)
Lemma mapM_middle (f : FamilyMember -> M FamilyMember)
    (l1 l2 : list FamilyMember) (c : FamilyMember) (w : World) :
  (forall a, a ∈ l1 ++ l2 -> forall w', f a w' = (a, w')) ->
  mapM f (l1 ++ c :: l2) w = (l1 ++ fst (f c w) :: l2, snd (f c w)).
Proof.
  intros Hfix. rewrite mapM_app_run, mapM_cons_run.
  rewrite (mapM_fixed f l1 w)
    by (intros a Ha; apply Hfix, elem_of_app; left; exact Ha).
  cbn [fst snd].
  rewrite (mapM_fixed f l2)
    by (intros a Ha; apply Hfix, elem_of_app; right; exact Ha).
  reflexivity.
Qed.

Lemma fmap_fixed (f : FamilyMember -> FamilyMember) (l : list FamilyMember) :
  (forall a, a ∈ l -> f a = a) -> f <$> l = l.
Proof.
  induction l as [|a l IH]; intros Hfix; [reflexivity|].
  rewrite fmap_cons, (Hfix a) by left. f_equal. apply IH.
  intros b Hb. apply Hfix. right. exact Hb.
Qed.

(** ** Ids and positions *)

Lemma hasId_true (targetId : string) (t : FamilyMember) :
  hasId targetId t = true <-> id t = targetId.
Proof. unfold hasId. apply bool_decide_eq_true. Qed.

Lemma hasId_false (targetId : string) (t : FamilyMember) :
  hasId targetId t = false <-> id t <> targetId.
Proof. unfold hasId. apply bool_decide_eq_false. Qed.

Lemma allIds_self (t : FamilyMember) : id t ∈ allIds t.
Proof. rewrite allIds_eq. left. Qed.

Lemma allIds_spouse (t s : FamilyMember) (i : string) :
  spouse t = Some s -> i ∈ allIds s -> i ∈ allIds t.
Proof.
  intros Hs Hi. rewrite allIds_eq, Hs. right. apply elem_of_app. left.
  exact Hi.
Qed.

Lemma allIds_parent (t p : FamilyMember) (ps : list FamilyMember)
    (i : string) :
  parents t = Some ps -> p ∈ ps -> i ∈ allIds p -> i ∈ allIds t.
Proof.
  intros Hps Hp Hi. rewrite allIds_eq, Hps. right. apply elem_of_app. right.
  apply list_elem_of_bind. eauto.
Qed.

Lemma allIds_child (t c : FamilyMember) (e : Edge) (i : string) :
  child t e = Some c -> i ∈ allIds c -> i ∈ allIds t.
Proof.
  destruct e as [|k]; simpl.
  - apply allIds_spouse.
  - destruct (parents t) as [ps|] eqn:Hps; [|done]. simpl. intros Hk.
    eapply allIds_parent; [exact Hps|]. eapply list_elem_of_lookup_2, Hk.
Qed.

Lemma nodeAt_allIds (path : list Edge) (t n : FamilyMember) :
  nodeAt t path = Some n -> id n ∈ allIds t.
Proof.
  revert t. induction path as [|e path IH]; intros t; simpl.
  - intros [= ->]. apply allIds_self.
  - destruct (child t e) as [c|] eqn:Hc; [|done]. simpl. intros Hn.
    eapply allIds_child; [exact Hc|]. apply IH, Hn.
Qed.

Lemma allIds_nodeAt (t : FamilyMember) (i : string) :
  i ∈ allIds t -> exists path n, nodeAt t path = Some n /\ id n = i.
Proof.
  induction t as [t IHs IHp] using FamilyMember_ind. rewrite allIds_eq.
  intros [->|Hin]%elem_of_cons.
  - exists [], t. done.
  - apply elem_of_app in Hin as [Hin|Hin].
    + destruct (spouse t) as [s|] eqn:Hs; [|by inversion Hin].
      destruct (IHs s eq_refl Hin) as (path & n & Hn & Hid).
      exists (ViaSpouse :: path), n. simpl. rewrite Hs. done.
    + destruct (parents t) as [ps|] eqn:Hps; [|by inversion Hin].
      apply list_elem_of_bind in Hin as (p & Hin & Hp).
      destruct (IHp ps p eq_refl Hp Hin) as (path & n & Hn & Hid).
      apply list_elem_of_lookup in Hp as [k Hk].
      exists (ViaParent k :: path), n. simpl. rewrite Hps. simpl.
      rewrite Hk. done.
Qed.

Lemma absent_inv (t : FamilyMember) (targetId : string) :
  targetId ∉ allIds t ->
  hasId targetId t = false /\
  (forall s, spouse t = Some s -> targetId ∉ allIds s) /\
  (forall ps p, parents t = Some ps -> p ∈ ps -> targetId ∉ allIds p).
Proof.
  intros Habs. split; [|split].
  - apply hasId_false. intros <-. apply Habs, allIds_self.
  - intros s Hs Hin. eapply Habs, allIds_spouse; eauto.
  - intros ps p Hps Hp Hin. eapply Habs, allIds_parent; eauto.
Qed.

(** ** Lookup misses *)

Lemma updateNode_absent (t : FamilyMember) (targetId : string) (u : Updates) :
  targetId ∉ allIds t -> updateNode t targetId u = t.
Proof.
  induction t as [t IHs IHp] using FamilyMember_ind. intros Habs.
  destruct (absent_inv t targetId Habs) as (Hid & Hs & Hp).
  rewrite updateNode_eq, Hid.
  transitivity (withLinks t (spouse t) (parents t));
    [|apply withLinks_same]. f_equal.
  - destruct (spouse t) as [s|] eqn:Es; [|reflexivity].
    destruct (absent_inv s targetId (Hs s eq_refl)) as (-> & _ & _).
    rewrite (IHs s eq_refl (Hs s eq_refl)). reflexivity.
  - destruct (parents t) as [[|p ps]|] eqn:Ep; try reflexivity.
    f_equal. apply fmap_fixed. intros a Ha.
    apply (IHp _ a eq_refl Ha), (Hp _ a eq_refl Ha).
Qed.

Lemma addParentToNode_absent (t : FamilyMember) (targetId : string) :
  targetId ∉ allIds t -> forall w, addParentToNode t targetId w = (t, w).
Proof.
  induction t as [t IHs IHp] using FamilyMember_ind. intros Habs w.
  destruct (absent_inv t targetId Habs) as (Hid & Hs & Hp).
  rewrite addParentToNode_eq, Hid, !run_bind.
  assert ((match spouse t with
           | Some s => s' ← addParentToNode s targetId; mret (Some s')
           | None => mret None
           end : M _) w = (spouse t, w)) as ->.
  { destruct (spouse t) as [s|] eqn:Es; [|reflexivity].
    rewrite run_bind, (IHs s eq_refl (Hs s eq_refl)). reflexivity. }
  cbn [fst snd].
  assert ((match parents t with
           | Some (p :: ps) =>
               ps' ← mapM (fun p => addParentToNode p targetId) (p :: ps);
               mret (Some ps')
           | other => mret other
           end : M _) w = (parents t, w)) as ->.
  { destruct (parents t) as [[|p ps]|] eqn:Ep; try reflexivity.
    rewrite run_bind, mapM_fixed; [reflexivity|].
    intros a Ha. apply (IHp _ a eq_refl Ha), (Hp _ a eq_refl Ha). }
  cbn [fst snd]. rewrite run_ret, withLinks_same. reflexivity.
Qed.

Lemma addSpouseToNode_absent (t : FamilyMember) (targetId : string) :
  targetId ∉ allIds t -> forall w, addSpouseToNode t targetId w = (t, w).
Proof.
  induction t as [t IHs IHp] using FamilyMember_ind. intros Habs w.
  destruct (absent_inv t targetId Habs) as (Hid & Hs & Hp).
  rewrite addSpouseToNode_eq, Hid, !run_bind.
  assert ((match spouse t with
           | Some s => s' ← addSpouseToNode s targetId; mret (Some s')
           | None => mret None
           end : M _) w = (spouse t, w)) as ->.
  { destruct (spouse t) as [s|] eqn:Es; [|reflexivity].
    rewrite run_bind, (IHs s eq_refl (Hs s eq_refl)). reflexivity. }
  cbn [fst snd].
  assert ((match parents t with
           | Some (p :: ps) =>
               ps' ← mapM (fun p => addSpouseToNode p targetId) (p :: ps);
               mret (Some ps')
           | other => mret other
           end : M _) w = (parents t, w)) as ->.
  { destruct (parents t) as [[|p ps]|] eqn:Ep; try reflexivity.
    rewrite run_bind, mapM_fixed; [reflexivity|].
    intros a Ha. apply (IHp _ a eq_refl Ha), (Hp _ a eq_refl Ha). }
  cbn [fst snd]. rewrite run_ret, withLinks_same. reflexivity.
Qed.

Lemma updateNode_emptyPatch (t : FamilyMember) (targetId : string) :
  updateNode t targetId emptyPatch = t.
Proof.
  induction t as [t IHs IHp] using FamilyMember_ind.
  rewrite updateNode_eq. destruct (hasId targetId t); [apply spread_emptyPatch|].
  transitivity (withLinks t (spouse t) (parents t));
    [|apply withLinks_same]. f_equal.
  - destruct (spouse t) as [s|] eqn:Es; [|reflexivity].
    rewrite spread_emptyPatch, (IHs s eq_refl). destruct (hasId targetId s); done.
  - destruct (parents t) as [[|p ps]|] eqn:Ep; try reflexivity.
    f_equal. apply fmap_fixed. intros a Ha. apply (IHp _ a eq_refl Ha).
Qed.

(** ** Uniqueness of ids along a path *)

Lemma NoDup_bind_elem (ps : list FamilyMember) (p : FamilyMember) :
  NoDup (ps ≫= allIds) -> p ∈ ps -> NoDup (allIds p).
Proof.
  induction ps as [|q ps IH]; intros Hnd Hp; [by inversion Hp|].
  rewrite bind_cons in Hnd. apply NoDup_app in Hnd as (Hq & _ & Hps).
  apply elem_of_cons in Hp as [->|Hp]; auto.
Qed.

Lemma uniqueIds_child (t c : FamilyMember) (e : Edge) :
  uniqueIds t -> child t e = Some c -> uniqueIds c /\ id t ∉ allIds c.
Proof.
  unfold uniqueIds. rewrite allIds_eq. intros [Hhd Htl]%NoDup_cons Hc.
  apply NoDup_app in Htl as (Hs & _ & Hp). split.
  - destruct e as [|k]; simpl in Hc.
    + rewrite Hc in Hs. exact Hs.
    + destruct (parents t) as [ps|] eqn:Eps; [|done]. simpl in Hc.
      eapply NoDup_bind_elem; [exact Hp|]. eapply list_elem_of_lookup_2, Hc.
  - intros Hin. apply Hhd.
    apply elem_of_app. destruct e as [|k]; simpl in Hc.
    + left. rewrite Hc. exact Hin.
    + right. destruct (parents t) as [ps|] eqn:Eps; [|done]. simpl in Hc.
      apply list_elem_of_bind. exists c. split; [exact Hin|].
      eapply list_elem_of_lookup_2, Hc.
Qed.

Lemma uniqueIds_clearPath (path : list Edge) (t n : FamilyMember) :
  uniqueIds t -> nodeAt t path = Some n -> clearPath (id n) t path.
Proof.
  revert t. induction path as [|e path IH]; intros t Hu Hn; simpl; [done|].
  simpl in Hn. destruct (child t e) as [c|] eqn:Hc; [|done]. simpl in Hn.
  destruct (uniqueIds_child t c e Hu Hc) as [Huc Hnot]. split.
  - intros Heq. apply Hnot. rewrite Heq. eapply nodeAt_allIds, Hn.
  - apply IH; assumption.
Qed.

(** ** updateNode along a path *)

Lemma updateNode_hit (t : FamilyMember) (targetId : string) (u : Updates) :
  hasId targetId t = true -> updateNode t targetId u = spread t u.
Proof. intros H. rewrite updateNode_eq, H. reflexivity. Qed.

Lemma child_updateNode (t : FamilyMember) (targetId : string) (u : Updates)
    (e : Edge) :
  hasId targetId t = false ->
  child (updateNode t targetId u) e =
  (fun c => updateNode c targetId u) <$> child t e.
Proof.
  intros H. rewrite updateNode_eq, H. destruct e as [|k]; simpl.
  - destruct (spouse t) as [s|]; [|reflexivity]. simpl.
    destruct (hasId targetId s) eqn:Hs; [|reflexivity].
    rewrite updateNode_hit by exact Hs. reflexivity.
  - destruct (parents t) as [[|p ps]|]; try reflexivity.
    exact (list_lookup_fmap _ (p :: ps) k).
Qed.

Lemma child_spread (t : FamilyMember) (u : Updates) (e : Edge) :
  displayPatch u -> child (spread t u) e = child t e.
Proof.
  intros (_ & Hp & Hs). destruct e; simpl; rewrite ?Hp, ?Hs; reflexivity.
Qed.

Lemma nodeAt_updateNode_clear (path : list Edge) (t n : FamilyMember)
    (targetId : string) (u : Updates) :
  nodeAt t path = Some n -> clearPath targetId t path ->
  nodeAt (updateNode t targetId u) path = Some (updateNode n targetId u).
Proof.
  revert t. induction path as [|e path IH]; intros t Hn Hclear; simpl in *.
  - injection Hn as ->. reflexivity.
  - destruct Hclear as [Hid Hclear]. apply hasId_false in Hid.
    rewrite child_updateNode by exact Hid.
    destruct (child t e) as [c|]; [|done]. simpl in *. apply IH; assumption.
Qed.

Lemma nodeAt_updateNode_any (path : list Edge) (t n : FamilyMember)
    (targetId : string) (u : Updates) :
  displayPatch u -> nodeAt t path = Some n ->
  nodeAt (updateNode t targetId u) path = Some n \/
  nodeAt (updateNode t targetId u) path = Some (updateNode n targetId u).
Proof.
  intros Hu. revert t. induction path as [|e path IH]; intros t Hn; simpl in *.
  - injection Hn as ->. right. reflexivity.
  - destruct (hasId targetId t) eqn:Hid.
    + left. rewrite updateNode_hit, child_spread by assumption. exact Hn.
    + rewrite child_updateNode by exact Hid.
      destruct (child t e) as [c|]; [|done]. simpl in *. apply IH, Hn.
Qed.

Lemma nodeAt_updateNode_None (path : list Edge) (t : FamilyMember)
    (targetId : string) (u : Updates) :
  displayPatch u -> nodeAt t path = None ->
  nodeAt (updateNode t targetId u) path = None.
Proof.
  intros Hu. revert t. induction path as [|e path IH]; intros t Hn; simpl in *.
  - done.
  - destruct (hasId targetId t) eqn:Hid.
    + rewrite updateNode_hit, child_spread by assumption. exact Hn.
    + rewrite child_updateNode by exact Hid.
      destruct (child t e) as [c|]; [|done]. simpl in *. apply IH, Hn.
Qed.

Lemma updateNode_id (t : FamilyMember) (targetId : string) (u : Updates) :
  u_id u = None -> id (updateNode t targetId u) = id t.
Proof.
  intros Hu. rewrite updateNode_eq.
  destruct (hasId targetId t); simpl; [rewrite Hu|]; reflexivity.
Qed.

Lemma fmap_id_preserved (f : FamilyMember -> FamilyMember)
    (l : list FamilyMember) :
  (forall a, id (f a) = id a) -> id <$> (f <$> l) = id <$> l.
Proof.
  intros Hf. induction l as [|a l IH]; [reflexivity|].
  rewrite !fmap_cons, Hf, IH. reflexivity.
Qed.

Lemma updateNode_content (t : FamilyMember) (targetId : string) (u : Updates) :
  displayPatch u -> hasId targetId t = false ->
  content (updateNode t targetId u) = content t.
Proof.
  intros Hu Hid. pose proof Hu as (Huid & _ & _).
  rewrite updateNode_eq, Hid. unfold content.
  cbn [parents spouse withLinks id name year imageUrl relationship].
  f_equal.
  - destruct (parents t) as [[|p ps]|]; try reflexivity.
    change (Some (id <$> ((fun p => updateNode p targetId u) <$> (p :: ps))) =
            Some (id <$> (p :: ps))).
    f_equal. apply fmap_id_preserved. intros a. apply updateNode_id, Huid.
  - destruct (spouse t) as [s|]; [|reflexivity].
    destruct (hasId targetId s); simpl; [rewrite Huid|rewrite updateNode_id];
      done.
Qed.

(** ** addParentToNode along a path *)

Lemma addParentToNode_hit (t : FamilyMember) (targetId : string) (w : World) :
  hasId targetId t = true ->
  fst (addParentToNode t targetId w) =
  withLinks t (spouse t)
    (Some (default [] (parents t) ++
           [newParent t (dateNow w (clockReads w))
              (mathRandom w (randomReads w))])).
Proof. intros H. rewrite addParentToNode_eq, H. reflexivity. Qed.

Lemma addParentToNode_miss (t : FamilyMember) (targetId : string)
    (w : World) :
  hasId targetId t = false ->
  exists sp ps,
    fst (addParentToNode t targetId w) = withLinks t sp ps /\
    (forall s, spouse t = Some s ->
       exists w', sp = Some (fst (addParentToNode s targetId w'))) /\
    (forall l k c, parents t = Some l -> l !! k = Some c ->
       exists l' w', ps = Some l' /\
         l' !! k = Some (fst (addParentToNode c targetId w'))).
Proof.
  intros H. rewrite addParentToNode_eq, H, !run_bind, run_ret. cbn [fst].
  eexists _, _. split; [reflexivity|]. split.
  - intros s ->. rewrite run_bind. exists w. reflexivity.
  - intros l k c -> Hk. destruct l as [|p l]; [done|].
    rewrite run_bind, run_ret. cbn [fst].
    match goal with |- context [mapM ?f (p :: l) ?w1] =>
      destruct (mapM_lookup_run f (p :: l) w1 k c Hk) as [w' Hw'];
      exists (fst (mapM f (p :: l) w1)), w' end.
    split; [reflexivity|exact Hw'].
Qed.

Lemma child_addParentToNode (t c : FamilyMember) (targetId : string)
    (w : World) (e : Edge) :
  hasId targetId t = false -> child t e = Some c ->
  exists w', child (fst (addParentToNode t targetId w)) e =
             Some (fst (addParentToNode c targetId w')).
Proof.
  intros H Hc.
  destruct (addParentToNode_miss t targetId w H) as (sp & ps & -> & Hs & Hp).
  destruct e as [|k]; simpl in *.
  - destruct (Hs c Hc) as [w' ->]. eauto.
  - destruct (parents t) as [l|]; [|done]. simpl in Hc.
    destruct (Hp l k c eq_refl Hc) as (l' & w' & -> & Hl'). simpl. eauto.
Qed.




(** ** addSpouseToNode on a tree with unique ids *)

Lemma addSpouseToNode_hit_none (t : FamilyMember) (targetId : string)
    (w : World) :
  hasId targetId t = true -> spouse t = None ->
  addSpouseToNode t targetId w =
  (withLinks t (Some (newSpouse t (dateNow w (clockReads w)))) (parents t),
   snd (Date_now w)).
Proof. intros H Hs. rewrite addSpouseToNode_eq, H, Hs. reflexivity. Qed.

Lemma addSpouseToNode_hit_some (t : FamilyMember) (targetId : string)
    (w : World) :
  hasId targetId t = true -> is_Some (spouse t) ->
  addSpouseToNode t targetId w =
  (t, noticed (Alert "This member already has a spouse.") w).
Proof. intros H [s Hs]. rewrite addSpouseToNode_eq, H, Hs. reflexivity. Qed.

Lemma NoDup_bind_middle (l1 l2 : list FamilyMember) (c p : FamilyMember)
    (i : string) :
  NoDup ((l1 ++ c :: l2) ≫= allIds) -> i ∈ allIds c -> p ∈ l1 ++ l2 ->
  i ∉ allIds p.
Proof.
  rewrite bind_app, bind_cons. intros (_ & D1 & N2)%NoDup_app Hc Hp Hin.
  apply NoDup_app in N2 as (_ & D2 & _).
  apply elem_of_app in Hp as [Hp|Hp].
  - apply (D1 i); [apply list_elem_of_bind; eauto|].
    apply elem_of_app. left. exact Hc.
  - apply (D2 i Hc). apply list_elem_of_bind. eauto.
Qed.

Lemma child_withChild (t c c' : FamilyMember) (e : Edge) :
  child t e = Some c -> child (withChild t e c') e = Some c'.
Proof.
  destruct e as [|k]; simpl; [done|].
  destruct (parents t) as [l|]; [|done]. simpl. intros Hk.
  apply list_lookup_insert_eq. eapply lookup_lt_Some, Hk.
Qed.

Lemma withChild_same (t c : FamilyMember) (e : Edge) :
  child t e = Some c -> withChild t e c = t.
Proof.
  destruct e as [|k]; simpl.
  - intros <-. apply withLinks_same.
  - destruct (parents t) as [l|] eqn:El; [|done]. simpl. intros Hk.
    rewrite list_insert_id by exact Hk. rewrite <- El. apply withLinks_same.
Qed.

(** One level of the search: only the child that holds the id is rebuilt,
    and only its call touches the environment. *)
Lemma addSpouseToNode_step (t c : FamilyMember) (e : Edge)
    (targetId : string) (w : World) :
  uniqueIds t -> child t e = Some c -> targetId ∈ allIds c ->
  addSpouseToNode t targetId w =
  (withChild t e (fst (addSpouseToNode c targetId w)),
   snd (addSpouseToNode c targetId w)).
Proof.
  intros Hu Hc Hin.
  destruct (uniqueIds_child t c e Hu Hc) as [_ Hnot].
  assert (hasId targetId t = false) as Hid.
  { apply hasId_false. intros Heq. apply Hnot. rewrite Heq. exact Hin. }
  unfold uniqueIds in Hu. rewrite allIds_eq in Hu.
  apply NoDup_cons in Hu as [_ Hu]. apply NoDup_app in Hu as (_ & Dsp & Nps).
  rewrite addSpouseToNode_eq, Hid, !run_bind, run_ret.
  destruct e as [|k]; simpl in Hc; unfold withChild.
  - rewrite Hc in Dsp |- *. rewrite run_bind, run_ret. cbn [fst snd].
    assert ((match parents t with
             | Some (p :: ps) =>
                 ps' ← mapM (fun p => addSpouseToNode p targetId) (p :: ps);
                 mret (Some ps')
             | other => mret other
             end : M _) (snd (addSpouseToNode c targetId w)) =
            (parents t, snd (addSpouseToNode c targetId w))) as ->;
      [|reflexivity].
    destruct (parents t) as [[|p ps]|] eqn:Ep; try reflexivity.
    rewrite run_bind, mapM_fixed; [reflexivity|].
    intros a Ha w'. apply addSpouseToNode_absent. intros Ha'.
    apply (Dsp targetId Hin). apply list_elem_of_bind. eauto.
  - destruct (parents t) as [l|] eqn:El; [|done]. simpl in Hc.
    assert ((match spouse t with
             | Some s => s' ← addSpouseToNode s targetId; mret (Some s')
             | None => mret None
             end : M _) w = (spouse t, w)) as ->.
    { destruct (spouse t) as [s|] eqn:Es; [|reflexivity].
      rewrite run_bind, addSpouseToNode_absent; [reflexivity|].
      intros Hs. apply (Dsp targetId Hs). apply list_elem_of_bind.
      exists c. split; [exact Hin|]. eapply list_elem_of_lookup_2, Hc. }
    cbn [fst snd].
    pose proof (take_drop_middle l k c Hc) as Hmid.
    assert (mapM (fun p => addSpouseToNode p targetId) l w =
            (<[k := fst (addSpouseToNode c targetId w)]> l,
             snd (addSpouseToNode c targetId w))) as Hmap.
    { rewrite <- Hmid at 1. rewrite mapM_middle.
      - rewrite insert_take_drop by (eapply lookup_lt_Some, Hc). reflexivity.
      - intros a Ha w'. apply addSpouseToNode_absent.
        eapply NoDup_bind_middle; [|exact Hin|exact Ha].
        rewrite Hmid. exact Nps. }
    destruct l as [|p l]; [done|].
    rewrite run_bind, Hmap. reflexivity.
Qed.

Lemma addSpouseToNode_unique (path : list Edge) (t n : FamilyMember)
    (targetId : string) (w : World) :
  uniqueIds t -> nodeAt t path = Some n -> id n = targetId ->
  nodeAt (fst (addSpouseToNode t targetId w)) path =
    Some (fst (addSpouseToNode n targetId w)) /\
  snd (addSpouseToNode t targetId w) = snd (addSpouseToNode n targetId w) /\
  (fst (addSpouseToNode n targetId w) = n ->
   fst (addSpouseToNode t targetId w) = t).
Proof.
  revert t. induction path as [|e path IH]; intros t Hu Hn Hid; simpl in Hn.
  - injection Hn as ->. done.
  - destruct (child t e) as [c|] eqn:Hc; [|done]. simpl in Hn.
    destruct (uniqueIds_child t c e Hu Hc) as [Huc _].
    destruct (IH c Huc Hn Hid) as (Hnode & Hworld & Hsame).
    rewrite (addSpouseToNode_step t c e targetId w Hu Hc)
      by (rewrite <- Hid; eapply nodeAt_allIds, Hn).
    cbn [fst snd]. split; [|split].
    + simpl. rewrite (child_withChild t c _ e Hc). exact Hnode.
    + exact Hworld.
    + intros Hfix. rewrite (Hsame Hfix). apply withChild_same, Hc.
Qed.

(** ** The model on concrete inputs *)

(** The hash is 32-bit FNV-1a: the published vectors for "a" and
    "foobar". *)
Example hashLoop_a :
  LegacyTree.toUint32 (LegacyTree.hashLoop "a" 0x811c9dc5) = 0xe40c292c.
Proof. reflexivity. Qed.

Example hashLoop_foobar :
  LegacyTree.toUint32 (LegacyTree.hashLoop "foobar" 0x811c9dc5) = 0xbf9cf968.
Proof. reflexivity. Qed.

Example parseInt_samples :
  parseInt "1925" = Some 1925 /\ parseInt "  -12abc" = Some (-12) /\
  parseInt "0x1F" = Some 31 /\ parseInt "1e3" = Some 1 /\
  parseInt "abc" = None /\ parseInt "" = None /\ parseInt "0x" = None.
Proof. repeat split; reflexivity. Qed.

Example newParent_year_of_NaN :
  year (newParent {| id := "a"; name := "A"; year := "unknown";
                     imageUrl := ""; relationship := None;
                     parents := None; spouse := None |} 0 "r") = "NaN".
Proof. reflexivity. Qed.

(** The end-to-end scenario: Arthur Legacy gains a spouse named
    "New Spouse" with year "1928", and a second request is refused. *)
Example seed_addSpouse_p2 :
  (name <$> nodeAt seedWithSpouse [ViaParent 1%nat; ViaSpouse],
   year <$> nodeAt seedWithSpouse [ViaParent 1%nat; ViaSpouse]) =
  (Some "New Spouse", Some "1928").
Proof. reflexivity. Qed.

Example seed_canDelete :
  canDelete (seedState (Some "root")) = false /\
  canDelete (seedState (Some "p1")) = false /\
  canDelete (seedState (Some "p2")) = true /\
  canDelete (seedState (Some "gp1")) = true.
Proof. repeat split; reflexivity. Qed.

(** A leaf passes the guard and is removed. *)
Example seed_delete_gp1 :
  allIds (data (fst (handleDeleteMember "gp1" (seedState (Some "gp1"))
                       sampleWorld))) = ["root"; "p1"; "p2"].
Proof. reflexivity. Qed.

(** ** The degree calculator on the seed dataset *)

Example degree_root : calculateDegree INITIAL_DATA "root" = 2%nat.
Proof. reflexivity. Qed.

Example degree_gp1 : calculateDegree INITIAL_DATA "gp1" = 1%nat.
Proof. reflexivity. Qed.

(** C1, as stated, fails: on the seed dataset the degree of "p1" is not 1,
    and after a delete request for "p1" the id is still in the tree. *)
Lemma seed_p1_not_deleted :
  calculateDegree INITIAL_DATA "p1" <> 1%nat /\
  "p1" ∈ allIds (data (fst (handleDeleteMember "p1" (seedState (Some "p1"))
                              sampleWorld))).
Proof.
  split.
  - vm_compute. discriminate.
  - vm_compute. apply list_elem_of_In. simpl. tauto.
Qed.

(** C1, amended: on the seed dataset the degree of "p1" is 2 (its one
    ancestor and the reference from the root), so a delete request for "p1"
    is blocked by the degree guard with a console warning and leaves the
    state unchanged; [deleteNode] itself, on the seed tree and "p1", builds a
    tree in which neither Eleanor Rigby nor Father Rigby remains. *)
Theorem seed_delete_p1_blocked :
  calculateDegree INITIAL_DATA "p1" = 2%nat /\
  (forall editing w,
      handleDeleteMember "p1" (seedState editing) w =
      (seedState editing,
       noticed (ConsoleWarn
                  "Attempted to delete member p1 with degree 2. Action blocked.")
               w)) /\
  (exists t, deleteNode INITIAL_DATA "p1" = Rebuilt t /\
             allIds t = ["root"; "p2"]).
Proof.
  split; [reflexivity|]. split.
  - intros editing w. reflexivity.
  - eexists. split; reflexivity.
Qed.

(** C2, as stated, fails: on the seed dataset the degree of "p2" is not 2. *)
Lemma seed_p2_degree_differs : calculateDegree INITIAL_DATA "p2" <> 2%nat.
Proof. vm_compute. discriminate. Qed.

(** C2, amended: on the seed dataset the degree calculator applied to "p2"
    (empty parents list, no spouse, referenced once from the root's parents
    array) returns exactly 1. *)
Theorem seed_degree_p2 : calculateDegree INITIAL_DATA "p2" = 1%nat.
Proof. reflexivity. Qed.

(** ** The deletion guard *)

(** C3: if the degree of [targetId] exceeds 1, or [targetId] is the id of
    the root, [handleDeleteMember] rejects the request: the component state
    (the tree included) is returned as it was and the only effect is one
    notice, the alert for the root (whatever its degree) and the console
    warning otherwise. *)
Theorem handleDeleteMember_rejects (st : AppState) (targetId : string)
    (w : World) :
  (1 < calculateDegree (data st) targetId)%nat \/ targetId = id (data st) ->
  handleDeleteMember targetId st w =
  (st,
   noticed
     (if bool_decide (targetId = id (data st))
      then Alert "Cannot delete the root person of the tree."
      else ConsoleWarn
             ("Attempted to delete member " +:+ targetId +:+
              " with degree " +:+
              pretty (calculateDegree (data st) targetId) +:+
              ". Action blocked."))
     w).
Proof.
  intros Hguard. unfold handleDeleteMember.
  destruct (bool_decide (targetId = id (data st))) eqn:Hroot.
  - reflexivity.
  - apply bool_decide_eq_false in Hroot.
    destruct Hguard as [Hdeg|Heq]; [|contradiction].
    apply Nat.ltb_lt in Hdeg. rewrite Hdeg. reflexivity.
Qed.

Lemma handleDeleteMember_rejects_witness :
  handleDeleteMember "root" (seedState None) sampleWorld =
  (seedState None,
   noticed (Alert "Cannot delete the root person of the tree.") sampleWorld).
Proof.
  apply (handleDeleteMember_rejects (seedState None) "root" sampleWorld).
  right. reflexivity.
Defined.

(** ** The expansion set *)

(** C10: [toggleSpouse] flips the membership of the toggled id, leaves the
    membership of every other id as it was, and toggling the same id twice
    gives back the set. *)
Theorem toggleSpouse_flip (expanded : gset string) (i : string) :
  (forall j : string,
      j ∈ LegacyTree.toggleSpouse i expanded <->
      if decide (j = i) then j ∉ expanded else j ∈ expanded) /\
  LegacyTree.toggleSpouse i expanded =
    (if decide (i ∈ expanded) then expanded ∖ {[ i ]} else expanded ∪ {[ i ]}) /\
  LegacyTree.toggleSpouse i (LegacyTree.toggleSpouse i expanded) = expanded.
Proof.
  unfold LegacyTree.toggleSpouse. split; [|split].
  - intros j. destruct (decide (i ∈ expanded)), (decide (j = i)); set_solver.
  - reflexivity.
  - destruct (decide (i ∈ expanded)) as [Hin|Hout].
    + rewrite decide_False by set_solver.
      apply set_eq. intros j. destruct (decide (j = i)); set_solver.
    + rewrite decide_True by set_solver.
      apply set_eq. intros j. destruct (decide (j = i)); set_solver.
Qed.

(** ** The jitter *)

Lemma toUint32_range (z : Z) : 0 <= LegacyTree.toUint32 z < 2 ^ 32.
Proof. unfold LegacyTree.toUint32. apply Z.mod_pos_bound. lia. Qed.

(** The offset lies in [-1, 1). *)
Lemma getRandomOffset_range (i seedStr : string) :
  (-1 <= LegacyTree.getRandomOffset i seedStr)%Q /\
  (LegacyTree.getRandomOffset i seedStr < 1)%Q.
Proof.
  unfold LegacyTree.getRandomOffset. cbv zeta.
  pose proof (toUint32_range
                (LegacyTree.hashLoop (i +:+ seedStr) 0x811c9dc5)) as [Hlo Hhi].
  set (h := LegacyTree.toUint32 _) in *.
  assert (0 <= inject_Z h)%Q as H0.
  { change 0%Q with (inject_Z 0). rewrite <- Zle_Qle. exact Hlo. }
  assert (inject_Z h < 4294967296)%Q as H1.
  { change 4294967296%Q with (inject_Z 4294967296). rewrite <- Zlt_Qlt.
    exact Hhi. }
  unfold Qdiv. change (/ 4294967296)%Q with (1 # 4294967296)%Q.
  split; lra.
Qed.

Lemma perturbNodes_lookup (nodes : list LegacyTree.HierarchyPointNode)
    (i : nat) :
  LegacyTree.perturbNodes nodes !! i = LegacyTree.perturbNode <$> nodes !! i.
Proof.
  revert i. induction nodes as [|n nodes IH]; intros [|i]; simpl; auto.
Qed.

(** ** Field updates *)

Lemma spread_mergedWith (n : FamilyMember) (u : Updates) :
  displayPatch u -> mergedWith n u (spread n u).
Proof.
  intros (Hi & Hp & Hs). unfold mergedWith, spread. simpl.
  rewrite Hi, Hp, Hs.
  destruct (u_name u), (u_year u), (u_imageUrl u), (u_relationship u);
    repeat split; reflexivity.
Qed.

(** C4: on a tree with unique ids that holds [targetId], and for a patch
    over the display fields, [updateNode] gives a tree of the same shape in
    which the node with that id has each field that the patch sets at the
    value of the patch and every other field, its parents and its spouse as
    before, and every other node has the content it had (fields, ids of its
    parents in order, id of its spouse); with the empty patch the result is
    the tree itself. *)
Theorem updateNode_changes_exactly_target (T : FamilyMember)
    (targetId : string) (u : Updates) :
  uniqueIds T -> targetId ∈ allIds T -> displayPatch u ->
  (exists path n n', nodeAt T path = Some n /\ id n = targetId /\
     nodeAt (updateNode T targetId u) path = Some n' /\
     mergedWith n u n') /\
  (forall path n, nodeAt T path = Some n ->
     exists n', nodeAt (updateNode T targetId u) path = Some n' /\
       if hasId targetId n then mergedWith n u n'
       else content n' = content n) /\
  (forall path, nodeAt T path = None ->
     nodeAt (updateNode T targetId u) path = None) /\
  updateNode T targetId emptyPatch = T.
Proof.
  intros Huniq Hin Hu.
  assert (forall path n, nodeAt T path = Some n -> hasId targetId n = true ->
            nodeAt (updateNode T targetId u) path = Some (spread n u)) as Hhit.
  { intros path n Hn Hid.
    rewrite (nodeAt_updateNode_clear path T n targetId u Hn).
    - rewrite updateNode_hit by exact Hid. reflexivity.
    - apply hasId_true in Hid as <-. apply uniqueIds_clearPath; assumption. }
  split; [|split; [|split]].
  - destruct (allIds_nodeAt T targetId Hin) as (path & n & Hn & Hid).
    exists path, n, (spread n u).
    split; [exact Hn|]. split; [exact Hid|]. split.
    + apply Hhit; [exact Hn|]. apply hasId_true, Hid.
    + apply spread_mergedWith, Hu.
  - intros path n Hn. destruct (hasId targetId n) eqn:Hid.
    + exists (spread n u).
      split; [apply Hhit; assumption|apply spread_mergedWith, Hu].
    + destruct (nodeAt_updateNode_any path T n targetId u Hu Hn) as [H|H].
      * exists n. split; [exact H|reflexivity].
      * exists (updateNode n targetId u). split; [exact H|].
        apply updateNode_content; assumption.
  - intros path Hn. apply nodeAt_updateNode_None; assumption.
  - apply updateNode_emptyPatch.
Qed.

Lemma updateNode_changes_exactly_target_witness :
  (exists path n n', nodeAt INITIAL_DATA path = Some n /\ id n = "p1" /\
     nodeAt (updateNode INITIAL_DATA "p1" samplePatch) path = Some n' /\
     mergedWith n samplePatch n') /\
  (forall path n, nodeAt INITIAL_DATA path = Some n ->
     exists n', nodeAt (updateNode INITIAL_DATA "p1" samplePatch) path =
                Some n' /\
       if hasId "p1" n then mergedWith n samplePatch n'
       else content n' = content n) /\
  (forall path, nodeAt INITIAL_DATA path = None ->
     nodeAt (updateNode INITIAL_DATA "p1" samplePatch) path = None) /\
  updateNode INITIAL_DATA "p1" emptyPatch = INITIAL_DATA.
Proof.
  apply (updateNode_changes_exactly_target INITIAL_DATA "p1" samplePatch).
  - apply (bool_decide_unpack _). vm_compute. exact I.
  - apply (bool_decide_unpack _). vm_compute. exact I.
  - unfold displayPatch. simpl. repeat split; reflexivity.
Defined.

(** ** Lookup misses *)

(** C5: when [targetId] is not in the tree, [updateNode], [addParentToNode]
    and [addSpouseToNode] return the tree as it was, and the two monadic
    ones leave the environment as it was: no alert, no console output, no
    id drawn. *)
Theorem lookup_miss_is_noop (T : FamilyMember) (targetId : string)
    (u : Updates) (w : World) :
  targetId ∉ allIds T ->
  updateNode T targetId u = T /\
  addParentToNode T targetId w = (T, w) /\
  addSpouseToNode T targetId w = (T, w).
Proof.
  intros Habs. split; [|split].
  - apply updateNode_absent, Habs.
  - apply addParentToNode_absent, Habs.
  - apply addSpouseToNode_absent, Habs.
Qed.

Lemma lookup_miss_is_noop_witness :
  updateNode INITIAL_DATA "p9" samplePatch = INITIAL_DATA /\
  addParentToNode INITIAL_DATA "p9" sampleWorld =
    (INITIAL_DATA, sampleWorld) /\
  addSpouseToNode INITIAL_DATA "p9" sampleWorld =
    (INITIAL_DATA, sampleWorld).
Proof.
  apply (lookup_miss_is_noop INITIAL_DATA "p9" samplePatch sampleWorld).
  apply (bool_decide_unpack _). vm_compute. exact I.
Defined.

(** ** Adding an ancestor *)



(** ** Adding a spouse *)

(** C7: on a tree with unique ids, let [n] be the node with [targetId].  If
    [n] has no spouse, after [addSpouseToNode] it is [n] with its spouse set
    to a synthetic node named "New Spouse", with relationship "Spouse" and
    the year of [n], and no notice is raised.  If [n] has a spouse, the call
    returns the tree as it was and its only effect is the alert "This member
    already has a spouse.". *)
Theorem addSpouseToNode_sets_or_refuses (T n : FamilyMember)
    (targetId : string) (path : list Edge) (w : World) :
  uniqueIds T -> nodeAt T path = Some n -> id n = targetId ->
  match spouse n with
  | None =>
      exists s,
        nodeAt (fst (addSpouseToNode T targetId w)) path =
          Some (withLinks n (Some s) (parents n)) /\
        syntheticSpouse n s /\
        notices (snd (addSpouseToNode T targetId w)) = notices w
  | Some _ =>
      addSpouseToNode T targetId w =
      (T, noticed (Alert "This member already has a spouse.") w)
  end.
Proof.
  intros Hu Hn Hid.
  destruct (addSpouseToNode_unique path T n targetId w Hu Hn Hid)
    as (Hnode & Hworld & Hsame).
  apply hasId_true in Hid.
  destruct (spouse n) as [s|] eqn:Hs.
  - rewrite (addSpouseToNode_hit_some n targetId w Hid) in Hworld, Hsame
      by (rewrite Hs; eauto).
    rewrite (surjective_pairing (addSpouseToNode T targetId w)).
    rewrite Hworld, Hsame; reflexivity.
  - rewrite (addSpouseToNode_hit_none n targetId w Hid Hs) in Hnode, Hworld.
    exists (newSpouse n (dateNow w (clockReads w))).
    split; [exact Hnode|]. split.
    + unfold syntheticSpouse, newSpouse. simpl. repeat split; reflexivity.
    + rewrite Hworld. reflexivity.
Qed.

Lemma addSpouseToNode_sets_or_refuses_witness :
  addSpouseToNode seedWithSpouse "p2" sampleWorld =
  (seedWithSpouse,
   noticed (Alert "This member already has a spouse.") sampleWorld).
Proof.
  apply (addSpouseToNode_sets_or_refuses seedWithSpouse
           (default INITIAL_DATA (nodeAt seedWithSpouse [ViaParent 1%nat]))
           "p2" [ViaParent 1%nat] sampleWorld).
  - apply (bool_decide_unpack _). vm_compute. exact I.
  - reflexivity.
  - reflexivity.
Defined.

(** * Further properties of the code *)

(** ** deleteNode *)

Lemma deleteNode_eq (tree : FamilyMember) (targetId : string) :
  deleteNode tree targetId =
  if hasId targetId tree then Null
  else
    let '(updatedSpouse, spouseChanged) :=
      match spouse tree with
      | Some s =>
          match deleteNode s targetId with
          | Null => (None, true)
          | Rebuilt s' => (Some s', true)
          | Same => (Some s, false)
          end
      | None => (None, false)
      end in
    let '(updatedParents, parentsChanged) :=
      match parents tree with
      | Some (p :: ps) =>
          let '(newParents, changed) :=
            foldl (loopBody targetId) ([], false) (p :: ps) in
          if changed then (Some newParents, true)
          else (parents tree, false)
      | other => (other, false)
      end in
    if spouseChanged || parentsChanged
    then Rebuilt (withLinks tree updatedSpouse updatedParents)
    else Same.
Proof. destruct tree; reflexivity. Qed.

Lemma foldl_loopBody (targetId : string) (l newParents : list FamilyMember)
    (changed : bool) :
  foldl (loopBody targetId) (newParents, changed) l =
  (newParents ++ omap (pruned targetId) l,
   changed || existsb (fun q => notSame (deleteNode q targetId)) l).
Proof.
  revert newParents changed.
  induction l as [|q l IH]; intros newParents changed; simpl.
  - rewrite app_nil_r, orb_false_r. reflexivity.
  - unfold pruned at 1. destruct (deleteNode q targetId) as [| |q']; simpl;
      rewrite IH, <- ?app_assoc, ?orb_true_r; reflexivity.
Qed.

Lemma omap_pruned_unchanged (targetId : string) (l : list FamilyMember) :
  existsb (fun q => notSame (deleteNode q targetId)) l = false ->
  omap (pruned targetId) l = l.
Proof.
  induction l as [|q l IH]; simpl; [reflexivity|].
  intros [Hq Hl]%orb_false_elim. unfold pruned at 1.
  destruct (deleteNode q targetId); try discriminate. simpl.
  f_equal. apply IH, Hl.
Qed.

(** The value of the result, whether the object was rebuilt or not. *)
Lemma pruned_eq (targetId : string) (t : FamilyMember) :
  pruned targetId t =
  if hasId targetId t then None
  else Some (withLinks t
               (match spouse t with
                | Some s => pruned targetId s
                | None => None
                end)
               (match parents t with
                | Some ps => Some (omap (pruned targetId) ps)
                | None => None
                end)).
Proof.
  unfold pruned at 1. rewrite deleteNode_eq.
  destruct (hasId targetId t); [reflexivity|].
  assert (forall sp ch,
    match spouse t with
    | Some s =>
        match deleteNode s targetId with
        | Null => (None, true)
        | Rebuilt s' => (Some s', true)
        | Same => (Some s, false)
        end
    | None => (None, false)
    end = (sp, ch) ->
    sp = match spouse t with
         | Some s => pruned targetId s
         | None => None
         end /\ (ch = false -> sp = spouse t)) as Hsp.
  { intros sp ch. destruct (spouse t) as [s|]; simpl.
    - unfold pruned. destruct (deleteNode s targetId); intros [= <- <-];
        simpl; split; (reflexivity || discriminate).
    - intros [= <- <-]. done. }
  assert (forall ps ch,
    match parents t with
    | Some (p :: l) =>
        let '(newParents, changed) :=
          foldl (loopBody targetId) ([], false) (p :: l) in
        if changed then (Some newParents, true) else (parents t, false)
    | other => (other, false)
    end = (ps, ch) ->
    ps = match parents t with
         | Some ps => Some (omap (pruned targetId) ps)
         | None => None
         end /\
    (ch = false -> ps = parents t)) as Hps.
  { intros ps ch. destruct (parents t) as [[|p l]|]; cbv beta iota.
    - intros [= <- <-]. done.
    - rewrite foldl_loopBody. cbn [app orb].
      destruct (existsb _ (p :: l)) eqn:Hch; intros [= <- <-].
      + split; [reflexivity|discriminate].
      + rewrite omap_pruned_unchanged by exact Hch. done.
    - intros [= <- <-]. done. }
  destruct (match spouse t with Some _ => _ | None => _ end) as [sp chs].
  destruct (match parents t with Some _ => _ | None => _ end) as [ps chp].
  destruct (Hsp sp chs eq_refl) as [-> Hs].
  destruct (Hps ps chp eq_refl) as [-> Hp].
  destruct chs, chp; simpl; try reflexivity.
  rewrite (Hs eq_refl), (Hp eq_refl), withLinks_same. reflexivity.
Qed.

Lemma allIds_withLinks (t : FamilyMember) (sp : option FamilyMember)
    (ps : option (list FamilyMember)) :
  allIds (withLinks t sp ps) =
  id t ::
  match sp with Some s => allIds s | None => [] end ++
  match ps with Some l => l ≫= allIds | None => [] end.
Proof. rewrite allIds_eq. reflexivity. Qed.

Lemma sublist_bind_omap (f : FamilyMember -> option FamilyMember)
    (l : list FamilyMember) :
  (forall q q', q ∈ l -> f q = Some q' ->
     (allIds q' `sublist_of` allIds q)) ->
  (omap f l ≫= allIds) `sublist_of` (l ≫= allIds).
Proof.
  induction l as [|q l IH]; intros Hf; [constructor|].
  rewrite bind_cons. simpl. destruct (f q) as [q'|] eqn:Hq.
  - rewrite bind_cons. apply sublist_app.
    + apply (Hf q q'); [left|exact Hq].
    + apply IH. intros a a' Ha. apply Hf. right. exact Ha.
  - apply sublist_inserts_l, IH. intros a a' Ha. apply Hf. right. exact Ha.
Qed.

Lemma pruned_spec (targetId : string) (t t' : FamilyMember) :
  pruned targetId t = Some t' ->
  id t' = id t /\ (targetId ∉ allIds t') /\
  (allIds t' `sublist_of` allIds t).
Proof.
  revert t'. induction t as [t IHs IHp] using FamilyMember_ind. intros t'.
  rewrite pruned_eq. destruct (hasId targetId t) eqn:Hid; [discriminate|].
  intros [= <-]. apply hasId_false in Hid. split; [reflexivity|].
  rewrite allIds_withLinks, (allIds_eq t). split.
  - intros [Heq|Hin]%elem_of_cons; [congruence|].
    apply elem_of_app in Hin as [Hin|Hin].
    + destruct (spouse t) as [s|]; [|by inversion Hin].
      destruct (pruned targetId s) as [s'|] eqn:Hs; [|by inversion Hin].
      destruct (IHs s eq_refl s' Hs) as (_ & Hnot & _). exact (Hnot Hin).
    + destruct (parents t) as [ps|]; [|by inversion Hin].
      apply list_elem_of_bind in Hin as (q' & Hin & Hq').
      apply list_elem_of_omap in Hq' as (q & Hq & Hpr).
      destruct (IHp ps q eq_refl Hq q' Hpr) as (_ & Hnot & _).
      exact (Hnot Hin).
  - apply sublist_skip, sublist_app.
    + destruct (spouse t) as [s|]; [|constructor].
      destruct (pruned targetId s) as [s'|] eqn:Hs;
        [|apply sublist_nil_l].
      apply (IHs s eq_refl s' Hs).
    + destruct (parents t) as [ps|]; [|constructor].
      apply sublist_bind_omap. intros q q' Hq Hpr.
      apply (IHp ps q eq_refl Hq q' Hpr).
Qed.

(** X1: for an id that is not in the tree, [deleteNode] hands back the
    argument itself (the same reference): nothing is rebuilt. *)
Theorem deleteNode_absent_same (t : FamilyMember) (targetId : string) :
  targetId ∉ allIds t -> deleteNode t targetId = Same.
Proof.
  induction t as [t IHs IHp] using FamilyMember_ind. intros Habs.
  destruct (absent_inv t targetId Habs) as (Hid & Hs & Hp).
  rewrite deleteNode_eq, Hid.
  assert (match spouse t with
          | Some s =>
              match deleteNode s targetId with
              | Null => (None, true)
              | Rebuilt s' => (Some s', true)
              | Same => (Some s, false)
              end
          | None => (None, false)
          end = (spouse t, false)) as ->.
  { destruct (spouse t) as [s|] eqn:Es; [|reflexivity].
    rewrite (IHs s eq_refl (Hs s eq_refl)). reflexivity. }
  assert (match parents t with
          | Some (p :: l) =>
              let '(newParents, changed) :=
                foldl (loopBody targetId) ([], false) (p :: l) in
              if changed then (Some newParents, true)
              else (parents t, false)
          | other => (other, false)
          end = (parents t, false)) as ->; [|reflexivity].
  destruct (parents t) as [[|p l]|] eqn:Ep; try reflexivity.
  rewrite foldl_loopBody. cbn [orb].
  assert (existsb (fun q => notSame (deleteNode q targetId)) (p :: l) = false)
    as ->; [|reflexivity].
  apply not_true_is_false. intros (q & Hq & Hch)%existsb_exists.
  apply list_elem_of_In in Hq.
  rewrite (IHp _ q eq_refl Hq (Hp _ q eq_refl Hq)) in Hch. discriminate.
Qed.

Lemma deleteNode_absent_same_witness : deleteNode INITIAL_DATA "p9" = Same.
Proof.
  apply (deleteNode_absent_same INITIAL_DATA "p9").
  apply (bool_decide_unpack _). vm_compute. exact I.
Defined.

(** X2: [deleteNode] returns [null] exactly when the argument itself has
    the id; otherwise the tree it returns keeps the id of its root, holds no
    node with the deleted id, and its ids are ids of the argument, in the
    same order. *)
Theorem deleteNode_removes_target (t : FamilyMember) (targetId : string) :
  (deleteNode t targetId = Null <-> id t = targetId) /\
  (forall t', resultOf t (deleteNode t targetId) = Some t' ->
     id t' = id t /\ (targetId ∉ allIds t') /\
     (allIds t' `sublist_of` allIds t)).
Proof.
  split.
  - pose proof (pruned_eq targetId t) as Heq. unfold pruned in Heq.
    destruct (hasId targetId t) eqn:Hid.
    + apply hasId_true in Hid. split; [done|]. intros _.
      destruct (deleteNode t targetId); done.
    + apply hasId_false in Hid. split; [|done].
      intros Hnull. rewrite Hnull in Heq. discriminate.
  - intros t'. apply pruned_spec.
Qed.

(** X3: [deleteNode] keeps the data-model invariant: if the ids of the
    tree are unique, so are the ids of the tree it returns. *)
Theorem deleteNode_keeps_uniqueIds (t t' : FamilyMember) (targetId : string) :
  uniqueIds t -> resultOf t (deleteNode t targetId) = Some t' ->
  uniqueIds t'.
Proof.
  intros Hu Hres. destruct (pruned_spec targetId t t' Hres) as (_ & _ & Hsub).
  unfold uniqueIds in *. eapply sublist_NoDup; eassumption.
Qed.

Lemma deleteNode_keeps_uniqueIds_witness :
  uniqueIds (default INITIAL_DATA (pruned "p1" INITIAL_DATA)).
Proof.
  apply (deleteNode_keeps_uniqueIds INITIAL_DATA _ "p1").
  - apply (bool_decide_unpack _). vm_compute. exact I.
  - reflexivity.
Defined.

(** X4: when [targetId] is not the id of the root and its degree is at most
    1, [handleDeleteMember] stores a tree that holds no node with that id
    (and otherwise only ids the old tree had, under the same root), closes
    the edit dialog and writes one log line; the branch that reports a
    failure is never taken. *)
Theorem handleDeleteMember_deletes (st : AppState) (targetId : string)
    (w : World) :
  targetId <> id (data st) ->
  (calculateDegree (data st) targetId <= 1)%nat ->
  exists t',
    handleDeleteMember targetId st w =
      ({| data := t'; editingMember := None |},
       noticed (ConsoleLog ("Deleting member: " +:+ targetId)) w) /\
    id t' = id (data st) /\ (targetId ∉ allIds t') /\
    (allIds t' `sublist_of` allIds (data st)).
Proof.
  intros Hroot Hdeg. unfold handleDeleteMember.
  rewrite bool_decide_eq_false_2 by exact Hroot.
  apply Nat.ltb_ge in Hdeg. rewrite Hdeg.
  pose proof (pruned_eq targetId (data st)) as Heq.
  rewrite (proj2 (hasId_false targetId (data st))) in Heq by congruence.
  unfold pruned in Heq. rewrite run_bind, Heq. eexists. split; [reflexivity|].
  apply (pruned_spec targetId). unfold pruned. exact Heq.
Qed.

Lemma handleDeleteMember_deletes_witness :
  exists t',
    handleDeleteMember "gp1" (seedState (Some "gp1")) sampleWorld =
      ({| data := t'; editingMember := None |},
       noticed (ConsoleLog ("Deleting member: " +:+ "gp1")) sampleWorld) /\
    id t' = id (data (seedState (Some "gp1"))) /\ ("gp1" ∉ allIds t') /\
    (allIds t' `sublist_of` allIds (data (seedState (Some "gp1")))).
Proof.
  apply (handleDeleteMember_deletes (seedState (Some "gp1")) "gp1"
           sampleWorld).
  - simpl. discriminate.
  - vm_compute. lia.
Defined.

(** ** calculateDegree *)

Lemma traverse_eq (targetId : string) (node : FamilyMember) (degree : nat) :
  traverse targetId node degree =
  let degree :=
    if hasId targetId node then
      let degree :=
        match parents node with
        | Some ps => (degree + length ps)%nat
        | None => degree
        end in
      match spouse node with
      | Some _ => (degree + 1)%nat
      | None => degree
      end
    else degree in
  let degree :=
    match parents node with
    | Some ps =>
        let degree :=
          if existsb (hasId targetId) ps then (degree + 1)%nat else degree in
        foldl (fun degree p => traverse targetId p degree) degree ps
    | None => degree
    end in
  match spouse node with
  | Some s =>
      let degree :=
        if hasId targetId s then (degree + 1)%nat else degree in
      traverse targetId s degree
  | None => degree
  end.
Proof. destruct node; reflexivity. Qed.

Lemma foldl_traverse (targetId : string) (ps : list FamilyMember) (d : nat) :
  (forall p, p ∈ ps ->
     forall d, traverse targetId p d = (d + traverse targetId p 0)%nat) ->
  foldl (fun degree p => traverse targetId p degree) d ps =
  (d + sum_list_with (fun p => traverse targetId p 0%nat) ps)%nat.
Proof.
  revert d. induction ps as [|p ps IH]; intros d Hacc; simpl; [lia|].
  rewrite IH by (intros q Hq; apply Hacc; right; exact Hq).
  rewrite (Hacc p) by left. lia.
Qed.

(** The counter after a node is the counter before it plus three terms:
    the node's own outgoing references if it is the target, what its
    parents array adds and what its spouse adds. *)
Lemma traverse_step (targetId : string) (t : FamilyMember) (d : nat) :
  (forall s, spouse t = Some s ->
     forall d, traverse targetId s d = (d + traverse targetId s 0)%nat) ->
  (forall ps p, parents t = Some ps -> p ∈ ps ->
     forall d, traverse targetId p d = (d + traverse targetId p 0)%nat) ->
  traverse targetId t d =
  (d + (if hasId targetId t then outgoing t else 0) +
   match parents t with
   | Some ps =>
       (if existsb (hasId targetId) ps then 1 else 0) +
       sum_list_with (fun p => traverse targetId p 0%nat) ps
   | None => 0
   end +
   match spouse t with
   | Some s => (if hasId targetId s then 1 else 0) + traverse targetId s 0
   | None => 0
   end)%nat.
Proof.
  intros Hs Hp. rewrite traverse_eq. cbv zeta. unfold outgoing.
  destruct (spouse t) as [s|] eqn:Es.
  - rewrite (Hs s eq_refl).
    destruct (parents t) as [ps|] eqn:Ep.
    + rewrite (foldl_traverse targetId ps)
        by (intros p Hin; apply (Hp ps p eq_refl Hin)).
      simpl. destruct (hasId targetId t), (existsb (hasId targetId) ps),
        (hasId targetId s); lia.
    + simpl. destruct (hasId targetId t), (hasId targetId s); lia.
  - destruct (parents t) as [ps|] eqn:Ep.
    + rewrite (foldl_traverse targetId ps)
        by (intros p Hin; apply (Hp ps p eq_refl Hin)).
      simpl. destruct (hasId targetId t), (existsb (hasId targetId) ps); lia.
    + simpl. destruct (hasId targetId t); lia.
Qed.

Lemma traverse_acc (targetId : string) (t : FamilyMember) (d : nat) :
  traverse targetId t d = (d + traverse targetId t 0)%nat.
Proof.
  revert d. induction t as [t IHs IHp] using FamilyMember_ind. intros d.
  rewrite (traverse_step targetId t d), (traverse_step targetId t 0%nat);
    try lia; eauto.
Qed.

Lemma traverse_sum (targetId : string) (t : FamilyMember) :
  traverse targetId t 0 =
  ((if hasId targetId t then outgoing t else 0) +
   match parents t with
   | Some ps =>
       (if existsb (hasId targetId) ps then 1 else 0) +
       sum_list_with (fun p => traverse targetId p 0%nat) ps
   | None => 0
   end +
   match spouse t with
   | Some s => (if hasId targetId s then 1 else 0) + traverse targetId s 0
   | None => 0
   end)%nat.
Proof.
  rewrite traverse_step; [lia| |]; intros; apply traverse_acc.
Qed.

Lemma existsb_hasId_absent (targetId : string) (l : list FamilyMember) :
  (forall q, q ∈ l -> targetId ∉ allIds q) ->
  existsb (hasId targetId) l = false.
Proof.
  intros Habs. apply not_true_is_false.
  intros (q & Hq & Hid)%existsb_exists. apply list_elem_of_In in Hq.
  apply hasId_true in Hid. apply (Habs q Hq). rewrite <- Hid.
  apply allIds_self.
Qed.

Lemma sum_list_with_zero (f : FamilyMember -> nat) (l : list FamilyMember) :
  (forall q, q ∈ l -> f q = 0%nat) -> sum_list_with f l = 0%nat.
Proof.
  induction l as [|q l IH]; intros Hz; simpl; [reflexivity|].
  rewrite (Hz q) by left. rewrite IH; [reflexivity|].
  intros a Ha. apply Hz. right. exact Ha.
Qed.

Lemma traverse_absent (t : FamilyMember) (targetId : string) :
  targetId ∉ allIds t -> traverse targetId t 0 = 0%nat.
Proof.
  induction t as [t IHs IHp] using FamilyMember_ind. intros Habs.
  destruct (absent_inv t targetId Habs) as (Hid & Hs & Hp).
  rewrite traverse_sum, Hid.
  destruct (spouse t) as [s|] eqn:Es.
  - destruct (absent_inv s targetId (Hs s eq_refl)) as (-> & _ & _).
    rewrite (IHs s eq_refl (Hs s eq_refl)).
    destruct (parents t) as [ps|] eqn:Ep; [|reflexivity].
    rewrite existsb_hasId_absent by (intros q Hq; apply (Hp ps q eq_refl Hq)).
    rewrite sum_list_with_zero; [reflexivity|].
    intros q Hq. apply (IHp ps q eq_refl Hq), (Hp ps q eq_refl Hq).
  - destruct (parents t) as [ps|] eqn:Ep; [|reflexivity].
    rewrite existsb_hasId_absent by (intros q Hq; apply (Hp ps q eq_refl Hq)).
    rewrite sum_list_with_zero; [reflexivity|].
    intros q Hq. apply (IHp ps q eq_refl Hq), (Hp ps q eq_refl Hq).
Qed.

(** X5: the degree of an id that is not in the tree is 0. *)
Theorem calculateDegree_absent (T : FamilyMember) (targetId : string) :
  targetId ∉ allIds T -> calculateDegree T targetId = 0%nat.
Proof. apply traverse_absent. Qed.

Lemma calculateDegree_absent_witness :
  calculateDegree INITIAL_DATA "p9" = 0%nat.
Proof.
  apply (calculateDegree_absent INITIAL_DATA "p9").
  apply (bool_decide_unpack _). vm_compute. exact I.
Defined.

Lemma uniqueIds_children_absent (t : FamilyMember) :
  uniqueIds t ->
  (forall s, spouse t = Some s -> id t ∉ allIds s) /\
  (forall ps p, parents t = Some ps -> p ∈ ps -> id t ∉ allIds p).
Proof.
  intros Hu. split.
  - intros s Hs. apply (uniqueIds_child t s ViaSpouse Hu Hs).
  - intros ps p Hps [k Hk]%list_elem_of_lookup.
    apply (uniqueIds_child t p (ViaParent k) Hu). simpl. rewrite Hps. exact Hk.
Qed.

(** In a tree with unique ids, an id found below one child is in no other
    child. *)
Lemma uniqueIds_siblings (t c : FamilyMember) (e : Edge) (i : string) :
  uniqueIds t -> child t e = Some c -> i ∈ allIds c ->
  match e with
  | ViaSpouse =>
      forall ps p, parents t = Some ps -> p ∈ ps -> i ∉ allIds p
  | ViaParent k =>
      (forall s, spouse t = Some s -> i ∉ allIds s) /\
      (forall ps p, parents t = Some ps ->
         p ∈ take k ps ++ drop (S k) ps -> i ∉ allIds p)
  end.
Proof.
  unfold uniqueIds. rewrite allIds_eq.
  intros [_ Hu]%NoDup_cons Hc Hin. apply NoDup_app in Hu as (_ & Dsp & Nps).
  destruct e as [|k]; simpl in Hc.
  - rewrite Hc in Dsp. intros ps p Hps Hp Hip. rewrite Hps in Dsp.
    apply (Dsp i Hin). apply list_elem_of_bind. eauto.
  - destruct (parents t) as [l|] eqn:El; [|done]. simpl in Hc. split.
    + intros s Hs His. rewrite Hs in Dsp. apply (Dsp i His).
      apply list_elem_of_bind. exists c. split; [exact Hin|].
      eapply list_elem_of_lookup_2, Hc.
    + intros ps p [= <-] Hp.
      eapply NoDup_bind_middle; [|exact Hin|exact Hp].
      rewrite (take_drop_middle l k c Hc). exact Nps.
Qed.

Lemma hasId_on_path (path : list Edge) (c n : FamilyMember) :
  uniqueIds c -> nodeAt c path = Some n ->
  hasId (id n) c = match path with [] => true | _ => false end.
Proof.
  intros Hu Hn. pose proof (uniqueIds_clearPath path c n Hu Hn) as Hclear.
  destruct path as [|e path]; simpl in *.
  - injection Hn as ->. apply hasId_true. reflexivity.
  - apply hasId_false. apply Hclear.
Qed.

Lemma traverse_of_member (T n : FamilyMember) (path : list Edge) :
  uniqueIds T -> nodeAt T path = Some n ->
  traverse (id n) T 0 =
  (outgoing n + match path with [] => 0 | _ => 1 end)%nat.
Proof.
  revert T.
  induction path as [|e path IH]; intros T Hu Hn; simpl in Hn.
  - injection Hn as <-. destruct (uniqueIds_children_absent T Hu) as [Hs Hp].
    rewrite traverse_sum, (proj2 (hasId_true (id T) T) eq_refl).
    assert (match parents T with
            | Some ps =>
                (if existsb (hasId (id T)) ps then 1 else 0) +
                sum_list_with (fun p => traverse (id T) p 0%nat) ps
            | None => 0
            end = 0)%nat as ->.
    { destruct (parents T) as [ps|] eqn:Ep; [|reflexivity].
      rewrite existsb_hasId_absent by (intros q Hq; apply (Hp ps q eq_refl Hq)).
      rewrite sum_list_with_zero; [reflexivity|].
      intros q Hq. apply traverse_absent, (Hp ps q eq_refl Hq). }
    assert (match spouse T with
            | Some s =>
                (if hasId (id T) s then 1 else 0) + traverse (id T) s 0
            | None => 0
            end = 0)%nat as ->; [|lia].
    destruct (spouse T) as [s|] eqn:Es; [|reflexivity].
    destruct (absent_inv s (id T) (Hs s eq_refl)) as (-> & _ & _).
    rewrite traverse_absent by apply (Hs s eq_refl). reflexivity.
  - destruct (child T e) as [c|] eqn:Hc; [|done]. simpl in Hn.
    destruct (uniqueIds_child T c e Hu Hc) as [Huc Hnot].
    pose proof (nodeAt_allIds path c n Hn) as Hin.
    pose proof (uniqueIds_siblings T c e (id n) Hu Hc Hin) as Hsib.
    pose proof (hasId_on_path path c n Huc Hn) as Hhit.
    specialize (IH c Huc Hn).
    assert (hasId (id n) T = false) as HT.
    { apply hasId_false. intros Heq. apply Hnot. rewrite Heq. exact Hin. }
    rewrite traverse_sum, HT.
    destruct e as [|k]; simpl in Hc.
    + rewrite Hc, Hhit, IH.
      assert (match parents T with
              | Some ps =>
                  (if existsb (hasId (id n)) ps then 1 else 0) +
                  sum_list_with (fun p => traverse (id n) p 0%nat) ps
              | None => 0
              end = 0)%nat as ->.
      { destruct (parents T) as [ps|] eqn:Ep; [|reflexivity].
        rewrite existsb_hasId_absent
          by (intros q Hq; apply (Hsib ps q eq_refl Hq)).
        rewrite sum_list_with_zero; [reflexivity|].
        intros q Hq. apply traverse_absent, (Hsib ps q eq_refl Hq). }
      destruct path; lia.
    + destruct (parents T) as [l|] eqn:El; [|done]. simpl in Hc.
      destruct Hsib as [Hsp Hoth].
      assert (match spouse T with
              | Some s =>
                  (if hasId (id n) s then 1 else 0) + traverse (id n) s 0
              | None => 0
              end = 0)%nat as ->.
      { destruct (spouse T) as [s|] eqn:Es; [|reflexivity].
        destruct (absent_inv s (id n) (Hsp s eq_refl)) as (-> & _ & _).
        rewrite traverse_absent by apply (Hsp s eq_refl). reflexivity. }
      rewrite <- (take_drop_middle l k c Hc).
      rewrite existsb_app, sum_list_with_app. simpl.
      rewrite !existsb_hasId_absent, !sum_list_with_zero.
      * rewrite Hhit, IH. destruct path; simpl; lia.
      * intros q Hq. apply traverse_absent, (Hoth l q eq_refl).
        apply elem_of_app. right. exact Hq.
      * intros q Hq. apply traverse_absent, (Hoth l q eq_refl).
        apply elem_of_app. left. exact Hq.
      * intros q Hq. apply (Hoth l q eq_refl). apply elem_of_app. right.
        exact Hq.
      * intros q Hq. apply (Hoth l q eq_refl). apply elem_of_app. left.
        exact Hq.
Qed.

(** X6: in a tree with unique ids the degree of a member is the number of
    its own outgoing references (parents entries, spouse) plus one for the
    single node that refers to it; for the root, which nothing refers to, it
    is the number of outgoing references alone. *)
Theorem calculateDegree_of_member (T n : FamilyMember) (path : list Edge) :
  uniqueIds T -> nodeAt T path = Some n ->
  calculateDegree T (id n) =
  (outgoing n + match path with [] => 0 | _ => 1 end)%nat.
Proof. apply traverse_of_member. Qed.

Lemma calculateDegree_of_member_witness :
  calculateDegree INITIAL_DATA (id seedP1) =
  (outgoing seedP1 + 1)%nat.
Proof.
  apply (calculateDegree_of_member INITIAL_DATA seedP1 [ViaParent 0%nat]).
  - apply (bool_decide_unpack _). vm_compute. exact I.
  - reflexivity.
Defined.

(** X7: in a tree with unique ids, the edit dialog offers deletion for a
    member exactly when the member is not the root and has no parents
    entries and no spouse: only leaves can be deleted. *)
Theorem canDelete_iff_leaf (T n : FamilyMember) (path : list Edge) :
  uniqueIds T -> nodeAt T path = Some n ->
  canDelete {| data := T; editingMember := Some (id n) |} = true <->
  path <> [] /\ outgoing n = 0%nat.
Proof.
  intros Hu Hn. unfold canDelete, calculateDegree. simpl.
  rewrite (traverse_of_member T n path Hu Hn).
  pose proof (hasId_on_path path T n Hu Hn) as Hhit. unfold hasId in Hhit.
  destruct path as [|e path].
  - injection Hn as ->. rewrite bool_decide_eq_true_2 by reflexivity.
    simpl. split; [discriminate|]. intros [H _]. contradiction.
  - rewrite (bool_decide_ext (id n = id T) (id T = id n)) by (split; congruence).
    rewrite Hhit. simpl. rewrite Nat.eqb_eq. split.
    + intros H. split; [discriminate|lia].
    + intros [_ H]. lia.
Qed.

Lemma canDelete_iff_leaf_witness :
  canDelete {| data := INITIAL_DATA; editingMember := Some (id seedP1) |}
    = true <->
  [ViaParent 0%nat] <> [] /\ outgoing seedP1 = 0%nat.
Proof.
  apply (canDelete_iff_leaf INITIAL_DATA seedP1 [ViaParent 0%nat]).
  - apply (bool_decide_unpack _). vm_compute. exact I.
  - reflexivity.
Defined.

(** ** handleAddChild *)

(** X8: a request to add a descendant to the root makes a new root named
    "New Descendant" whose only parent is the old root, tagged "Parent";
    everything below the old root is where it was, one level down, every
    old id is kept and no notice is raised.  A request for any other id
    changes nothing and raises the alert. *)
Theorem handleAddChild_keeps_tree (st : AppState) (targetId : string)
    (w : World) :
  (targetId <> id (data st) ->
   handleAddChild targetId st w =
   (st, noticed (Alert "In this view, you can only extend descendants from the root of the tree.") w)) /\
  (targetId = id (data st) ->
   let st' := fst (handleAddChild targetId st w) in
   name (data st') = "New Descendant" /\
   spouse (data st') = None /\
   parents (data st') =
     Some [spread (data st)
             {| u_id := None; u_name := None; u_year := None;
                u_imageUrl := None; u_relationship := Some (Some "Parent");
                u_parents := None; u_spouse := None |}] /\
   (forall e path, nodeAt (data st') (ViaParent 0 :: e :: path) =
                   nodeAt (data st) (e :: path)) /\
   allIds (data st') = id (data st') :: allIds (data st) /\
   editingMember st' = editingMember st /\
   notices (snd (handleAddChild targetId st w)) = notices w).
Proof.
  unfold handleAddChild. split.
  - intros Hne. rewrite bool_decide_eq_false_2 by exact Hne. reflexivity.
  - intros ->. rewrite bool_decide_eq_true_2 by reflexivity.
    cbv zeta. rewrite run_bind, run_ret. cbn [fst snd data editingMember].
    repeat split.
    rewrite (allIds_eq (newRoot _ _)). cbn [newRoot spouse parents id app].
    rewrite bind_singleton. f_equal.
    rewrite (allIds_eq (data st)). reflexivity.
Qed.

(** ** updateNode, composed and as an invariant *)

Lemma updateNode_miss (t : FamilyMember) (targetId : string) (u : Updates) :
  hasId targetId t = false ->
  updateNode t targetId u =
  withLinks t
    (match spouse t with
     | Some s => Some (updateNode s targetId u)
     | None => None
     end)
    (match parents t with
     | Some ps => Some ((fun p => updateNode p targetId u) <$> ps)
     | None => None
     end).
Proof.
  intros H. rewrite updateNode_eq, H. f_equal.
  - destruct (spouse t) as [s|]; [|reflexivity].
    destruct (hasId targetId s) eqn:Hs; [|reflexivity].
    rewrite updateNode_hit by exact Hs. reflexivity.
  - destruct (parents t) as [[|p ps]|]; reflexivity.
Qed.

Lemma fmap_ext_elem {A B} (f g : A -> B) (l : list A) :
  (forall a, a ∈ l -> f a = g a) -> f <$> l = g <$> l.
Proof.
  induction l as [|a l IH]; intros H; [reflexivity|].
  rewrite !fmap_cons, (H a) by left. f_equal. apply IH.
  intros b Hb. apply H. right. exact Hb.
Qed.

Lemma bind_ext_elem {A B} (f g : A -> list B) (l : list A) :
  (forall a, a ∈ l -> f a = g a) -> l ≫= f = l ≫= g.
Proof.
  induction l as [|a l IH]; intros H; [reflexivity|].
  rewrite !bind_cons, (H a) by left. f_equal. apply IH.
  intros b Hb. apply H. right. exact Hb.
Qed.

(** X9: saving the same patch for the same id twice gives the tree that
    saving it once gives (for a patch that does not rename the node). *)
Theorem updateNode_idempotent (T : FamilyMember) (targetId : string)
    (u : Updates) :
  u_id u = None ->
  updateNode (updateNode T targetId u) targetId u = updateNode T targetId u.
Proof.
  intros Hu. induction T as [t IHs IHp] using FamilyMember_ind.
  destruct (hasId targetId t) eqn:Hid.
  - rewrite (updateNode_hit t) by exact Hid. rewrite updateNode_hit.
    + destruct u as [[?|] [?|] [?|] [?|] [?|] [?|] [?|]]; reflexivity.
    + unfold hasId in *. simpl. rewrite Hu. exact Hid.
  - rewrite (updateNode_miss t) by exact Hid.
    rewrite updateNode_miss by exact Hid.
    unfold withLinks. cbn [id name year imageUrl relationship parents spouse].
    f_equal.
    + destruct (parents t) as [ps|] eqn:Ep; [|reflexivity]. f_equal.
      rewrite <- list_fmap_compose. apply fmap_ext_elem. intros a Ha.
      apply (IHp ps a eq_refl Ha).
    + destruct (spouse t) as [s|] eqn:Es; [|reflexivity]. f_equal.
      apply (IHs s eq_refl).
Qed.

Lemma updateNode_idempotent_witness :
  updateNode (updateNode INITIAL_DATA "p1" samplePatch) "p1" samplePatch =
  updateNode INITIAL_DATA "p1" samplePatch.
Proof.
  apply (updateNode_idempotent INITIAL_DATA "p1" samplePatch). reflexivity.
Defined.

(** X10: a patch over the display fields changes no id: the ids of the
    updated tree are the ids of the tree, in the same order, so unique ids
    stay unique. *)
Theorem updateNode_keeps_ids (T : FamilyMember) (targetId : string)
    (u : Updates) :
  displayPatch u ->
  allIds (updateNode T targetId u) = allIds T /\
  (uniqueIds T -> uniqueIds (updateNode T targetId u)).
Proof.
  intros Hu.
  assert (allIds (updateNode T targetId u) = allIds T) as Heq.
  { induction T as [t IHs IHp] using FamilyMember_ind.
    destruct (hasId targetId t) eqn:Hid.
    - rewrite updateNode_hit by exact Hid. destruct Hu as (Hi & Hp & Hs).
      rewrite (allIds_eq (spread t u)), (allIds_eq t). unfold spread.
      cbn [id parents spouse]. rewrite Hi, Hp, Hs. reflexivity.
    - rewrite updateNode_miss by exact Hid.
      rewrite allIds_withLinks, (allIds_eq t). f_equal. f_equal.
      + destruct (spouse t) as [s|] eqn:Es; [|reflexivity].
        apply (IHs s eq_refl).
      + destruct (parents t) as [ps|] eqn:Ep; [|reflexivity].
        rewrite list_fmap_bind. apply bind_ext_elem. intros a Ha.
        apply (IHp ps a eq_refl Ha). }
  split; [exact Heq|]. unfold uniqueIds. rewrite Heq. trivial.
Qed.

Lemma updateNode_keeps_ids_witness :
  allIds (updateNode INITIAL_DATA "p1" samplePatch) = allIds INITIAL_DATA /\
  (uniqueIds INITIAL_DATA ->
   uniqueIds (updateNode INITIAL_DATA "p1" samplePatch)).
Proof.
  apply (updateNode_keeps_ids INITIAL_DATA "p1" samplePatch).
  unfold displayPatch. simpl. repeat split; reflexivity.
Defined.

(** ** addParentToNode: what it keeps *)

Lemma mapM_notices (f : FamilyMember -> M FamilyMember)
    (l : list FamilyMember) (w : World) :
  (forall a, a ∈ l -> forall w', notices (snd (f a w')) = notices w') ->
  notices (snd (mapM f l w)) = notices w.
Proof.
  revert w. induction l as [|a l IH]; intros w Hf; [reflexivity|].
  rewrite mapM_cons_run. cbn [snd].
  rewrite IH by (intros b Hb; apply Hf; right; exact Hb).
  apply Hf. left.
Qed.

Lemma addParentToNode_notices (t : FamilyMember) (targetId : string)
    (w : World) :
  notices (snd (addParentToNode t targetId w)) = notices w.
Proof.
  revert w. induction t as [t IHs IHp] using FamilyMember_ind. intros w.
  rewrite addParentToNode_eq. destruct (hasId targetId t); [reflexivity|].
  rewrite !run_bind, run_ret. cbn [snd].
  transitivity (notices (snd ((match spouse t with
           | Some s => s' ← addParentToNode s targetId; mret (Some s')
           | None => mret None
           end : M _) w))).
  - destruct (parents t) as [[|p ps]|] eqn:Ep; try reflexivity.
    rewrite run_bind, run_ret. cbn [snd]. apply mapM_notices.
    intros a Ha w'. apply (IHp _ a eq_refl Ha).
  - destruct (spouse t) as [s|] eqn:Es; [|reflexivity].
    rewrite run_bind, run_ret. cbn [snd]. apply (IHs s eq_refl).
Qed.

Lemma addParentToNode_fields (t : FamilyMember) (targetId : string)
    (w : World) :
  let t' := fst (addParentToNode t targetId w) in
  id t' = id t /\ name t' = name t /\ year t' = year t /\
  imageUrl t' = imageUrl t /\ relationship t' = relationship t.
Proof.
  destruct (hasId targetId t) eqn:H; cbv zeta.
  - rewrite addParentToNode_hit by exact H. done.
  - destruct (addParentToNode_miss t targetId w H) as (sp & ps & -> & _).
    done.
Qed.

Lemma nodeAt_addParentToNode_any (path : list Edge) (t n : FamilyMember)
    (targetId : string) (w : World) :
  nodeAt t path = Some n ->
  nodeAt (fst (addParentToNode t targetId w)) path = Some n \/
  exists w', nodeAt (fst (addParentToNode t targetId w)) path =
             Some (fst (addParentToNode n targetId w')).
Proof.
  revert t w. induction path as [|e path IH]; intros t w Hn; simpl in Hn.
  - injection Hn as ->. right. exists w. reflexivity.
  - destruct (child t e) as [c|] eqn:Hc; [|done]. simpl in Hn.
    destruct (hasId targetId t) eqn:Hid.
    + left. rewrite addParentToNode_hit by exact Hid. simpl.
      assert (child (withLinks t (spouse t)
                (Some (default [] (parents t) ++
                   [newParent t (dateNow w (clockReads w))
                      (mathRandom w (randomReads w))]))) e = Some c) as ->;
        [|exact Hn].
      destruct e as [|k]; simpl in *; [exact Hc|].
      destruct (parents t) as [l|]; [|done]. simpl in *.
      rewrite lookup_app_l by (eapply lookup_lt_Some, Hc). exact Hc.
    + destruct (child_addParentToNode t c targetId w e Hid Hc) as [w1 Hc1].
      simpl. rewrite Hc1. simpl. apply IH, Hn.
Qed.

(** X11: [addParentToNode] removes nothing and edits nothing: every member
    of the tree is found at the same place afterwards with the same id,
    name, year, image and relationship; and, unlike [addSpouseToNode], it
    never raises a notice. *)
Theorem addParentToNode_keeps_members (T : FamilyMember) (targetId : string)
    (w : World) :
  (forall path n, nodeAt T path = Some n ->
     exists n', nodeAt (fst (addParentToNode T targetId w)) path = Some n' /\
       id n' = id n /\ name n' = name n /\ year n' = year n /\
       imageUrl n' = imageUrl n /\ relationship n' = relationship n) /\
  notices (snd (addParentToNode T targetId w)) = notices w.
Proof.
  split; [|apply addParentToNode_notices].
  intros path n Hn.
  destruct (nodeAt_addParentToNode_any path T n targetId w Hn)
    as [H|[w' H]].
  - exists n. done.
  - eexists. split; [exact H|]. apply addParentToNode_fields.
Qed.



(** ** addSpouseToNode: the invariant and the second request *)

Lemma uniqueIds_withChild (t c c' : FamilyMember) (e : Edge) (new : string) :
  uniqueIds t -> child t e = Some c -> uniqueIds c' ->
  (forall x, x ∈ allIds c' <-> x = new \/ x ∈ allIds c) ->
  new ∉ allIds t ->
  uniqueIds (withChild t e c') /\
  (forall x, x ∈ allIds (withChild t e c') <-> x = new \/ x ∈ allIds t).
Proof.
  unfold uniqueIds. intros Hu Hc Hu' Hids Hnew.
  assert (forall x, x ∈ allIds t <->
            x ∈ id t :: match spouse t with Some s => allIds s | None => [] end
                ++ match parents t with Some ps => ps ≫= allIds | None => [] end)
    as Ht by (intros x; rewrite <- allIds_eq; reflexivity).
  setoid_rewrite Ht. clear Ht. rewrite (allIds_eq t) in Hu, Hnew.
  destruct e as [|k]; simpl in Hc; unfold withChild;
    rewrite allIds_withLinks.
  - rewrite Hc in Hu, Hnew |- *.
    set (P := match parents t with Some ps => ps ≫= allIds | None => [] end)
      in *.
    revert Hu Hnew. rewrite !NoDup_cons, !NoDup_app.
    intros (H1 & H2 & H3 & H4) Hnew. split.
    + split; [|split; [exact Hu'|split; [|exact H4]]]; set_solver.
    + set_solver.
  - destruct (parents t) as [l|] eqn:El; [|done]. simpl in Hc.
    cbn [fmap option_fmap option_map].
    rewrite insert_take_drop by (eapply lookup_lt_Some, Hc).
    assert (l ≫= allIds =
            (take k l ≫= allIds) ++ allIds c ++ (drop (S k) l ≫= allIds))
      as E.
    { rewrite <- (take_drop_middle l k c Hc) at 1.
      rewrite bind_app, bind_cons. reflexivity. }
    rewrite E in Hu, Hnew |- *. clear E.
    revert Hu Hnew. rewrite !bind_app, !bind_cons.
    set (A := match spouse t with Some s => allIds s | None => [] end).
    set (L1 := take k l ≫= allIds). set (L2 := drop (S k) l ≫= allIds).
    rewrite !NoDup_cons, !NoDup_app.
    intros (H1 & H2 & H3 & H4 & H5 & H6 & H7 & H8) Hnew.
    split; [repeat split; try assumption|]; set_solver.
Qed.

Lemma addSpouseToNode_ids (path : list Edge) (t n : FamilyMember)
    (targetId : string) (w : World) :
  uniqueIds t -> nodeAt t path = Some n -> id n = targetId ->
  spouse n = None ->
  id (newSpouse n (dateNow w (clockReads w))) ∉ allIds t ->
  uniqueIds (fst (addSpouseToNode t targetId w)) /\
  (forall x, x ∈ allIds (fst (addSpouseToNode t targetId w)) <->
             x = id (newSpouse n (dateNow w (clockReads w))) \/
             x ∈ allIds t).
Proof.
  revert t. induction path as [|e path IH]; intros t Hu Hn Hid Hs Hnew;
    simpl in Hn.
  - injection Hn as ->. apply hasId_true in Hid.
    rewrite (addSpouseToNode_hit_none n targetId w Hid Hs). cbn [fst].
    unfold uniqueIds in *. rewrite allIds_withLinks.
    rewrite (allIds_eq n), Hs in Hu, Hnew.
    assert (forall x, x ∈ allIds n <->
              x ∈ id n :: [] ++ match parents n with
                                | Some ps => ps ≫= allIds
                                | None => []
                                end) as Hn
      by (intros x; rewrite (allIds_eq n), Hs; reflexivity).
    setoid_rewrite Hn. clear Hn.
    set (P := match parents n with Some ps => ps ≫= allIds | None => [] end)
      in *.
    rewrite (allIds_eq (newSpouse _ _)). cbn [newSpouse spouse parents id].
    set (new := "spouse-" +:+ pretty (dateNow w (clockReads w))) in *.
    revert Hu. simpl. rewrite !NoDup_cons. intros [H1 H2].
    split; [|set_solver]. repeat split; try assumption; set_solver.
  - destruct (child t e) as [c|] eqn:Hc; [|done]. simpl in Hn.
    destruct (uniqueIds_child t c e Hu Hc) as [Huc _].
    assert (targetId ∈ allIds c) as Hin
      by (rewrite <- Hid; eapply nodeAt_allIds, Hn).
    rewrite (addSpouseToNode_step t c e targetId w Hu Hc Hin). cbn [fst].
    destruct (IH c Huc Hn Hid Hs) as [Hu' Hids].
    { intros H. apply Hnew. eapply allIds_child; eassumption. }
    apply (uniqueIds_withChild t c _ e _ Hu Hc Hu' Hids Hnew).
Qed.

(** X13: [addSpouseToNode] keeps the ids unique, provided the id it would
    generate for the new spouse is not already in the tree. *)
Theorem addSpouseToNode_keeps_uniqueIds (T : FamilyMember)
    (targetId : string) (w : World) :
  uniqueIds T ->
  "spouse-" +:+ pretty (dateNow w (clockReads w)) ∉ allIds T ->
  uniqueIds (fst (addSpouseToNode T targetId w)).
Proof.
  intros Hu Hnew. destruct (decide (targetId ∈ allIds T)) as [Hin|Hout].
  - destruct (allIds_nodeAt T targetId Hin) as (path & n & Hn & Hid).
    destruct (spouse n) as [s|] eqn:Hs.
    + destruct (addSpouseToNode_unique path T n targetId w Hu Hn Hid)
        as (_ & _ & Hsame).
      rewrite Hsame; [exact Hu|].
      rewrite addSpouseToNode_hit_some;
        [reflexivity|apply hasId_true, Hid|rewrite Hs; eauto].
    + apply (addSpouseToNode_ids path T n targetId w Hu Hn Hid Hs Hnew).
  - rewrite addSpouseToNode_absent by exact Hout. exact Hu.
Qed.

Lemma addSpouseToNode_keeps_uniqueIds_witness :
  uniqueIds (fst (addSpouseToNode INITIAL_DATA "p2" sampleWorld)).
Proof.
  apply (addSpouseToNode_keeps_uniqueIds INITIAL_DATA "p2" sampleWorld).
  - apply (bool_decide_unpack _). vm_compute. exact I.
  - apply (bool_decide_unpack _). vm_compute. exact I.
Defined.

(** X14: after a spouse was added to a member (unique ids, generated id not
    yet in the tree), a second request for the same member, in whatever
    environment, is refused: it returns the tree of the first request as it
    is and its only effect is the alert. *)
Theorem addSpouseToNode_twice (T n : FamilyMember) (targetId : string)
    (path : list Edge) (w w2 : World) :
  uniqueIds T -> nodeAt T path = Some n -> id n = targetId ->
  spouse n = None ->
  "spouse-" +:+ pretty (dateNow w (clockReads w)) ∉ allIds T ->
  addSpouseToNode (fst (addSpouseToNode T targetId w)) targetId w2 =
  (fst (addSpouseToNode T targetId w),
   noticed (Alert "This member already has a spouse.") w2).
Proof.
  intros Hu Hn Hid Hs Hnew.
  destruct (addSpouseToNode_ids path T n targetId w Hu Hn Hid Hs Hnew)
    as [Hu1 _].
  destruct (addSpouseToNode_unique path T n targetId w Hu Hn Hid)
    as (Hn1 & _ & _).
  pose proof Hid as Hhit. apply hasId_true in Hhit.
  rewrite (addSpouseToNode_hit_none n targetId w Hhit Hs) in Hn1.
  cbn [fst] in Hn1.
  destruct (addSpouseToNode_unique path _ _ targetId w2 Hu1 Hn1 Hid)
    as (_ & Hworld & Hsame).
  rewrite (addSpouseToNode_hit_some (withLinks n _ _) targetId w2 Hhit)
    in Hworld, Hsame by (simpl; eauto).
  rewrite (surjective_pairing (addSpouseToNode _ targetId w2)).
  rewrite Hworld, Hsame; reflexivity.
Qed.

Lemma addSpouseToNode_twice_witness :
  addSpouseToNode (fst (addSpouseToNode INITIAL_DATA "p2" sampleWorld))
    "p2" sampleWorld =
  (fst (addSpouseToNode INITIAL_DATA "p2" sampleWorld),
   noticed (Alert "This member already has a spouse.") sampleWorld).
Proof.
  apply (addSpouseToNode_twice INITIAL_DATA
           (default INITIAL_DATA (nodeAt INITIAL_DATA [ViaParent 1%nat]))
           "p2" [ViaParent 1%nat] sampleWorld sampleWorld).
  - apply (bool_decide_unpack _). vm_compute. exact I.
  - reflexivity.
  - reflexivity.
  - reflexivity.
  - apply (bool_decide_unpack _). vm_compute. exact I.
Defined.

(** ** getRandomOffset and perturbNodes: bounds *)

(** X15: every offset is [(h - 2^31) / 2^31] for a 32-bit [h], so it lies
    in [-1, 1). *)
Theorem getRandomOffset_bounds (i seedStr : string) :
  exists h : Z,
    (0 <= h < 2 ^ 32)%Z /\
    (LegacyTree.getRandomOffset i seedStr ==
       (inject_Z h - 2147483648) / 2147483648)%Q /\
    (-1 <= LegacyTree.getRandomOffset i seedStr)%Q /\
    (LegacyTree.getRandomOffset i seedStr < 1)%Q.
Proof.
  exists (LegacyTree.toUint32
            (LegacyTree.hashLoop (i +:+ seedStr) 0x811c9dc5)).
  split; [apply toUint32_range|]. split.
  - unfold LegacyTree.getRandomOffset. cbv zeta. field.
  - apply getRandomOffset_range.
Qed.

(** X16: [perturbNodes] keeps the number of nodes and, of every node, its
    data, depth and parent; it moves a node by less than 20 horizontally
    and 15 vertically, and leaves a node of depth 0 where it is. *)
Theorem perturbNodes_bounded (nodes : list LegacyTree.HierarchyPointNode)
    (i : nat) (node : LegacyTree.HierarchyPointNode) :
  nodes !! i = Some node ->
  length (LegacyTree.perturbNodes nodes) = length nodes /\
  exists node',
    LegacyTree.perturbNodes nodes !! i = Some node' /\
    LegacyTree.data node' = LegacyTree.data node /\
    LegacyTree.depth node' = LegacyTree.depth node /\
    LegacyTree.parent node' = LegacyTree.parent node /\
    (LegacyTree.x node - 20 <= LegacyTree.x node' <= LegacyTree.x node + 20)%Q
    /\
    (LegacyTree.y node - 15 <= LegacyTree.y node' <= LegacyTree.y node + 15)%Q
    /\
    (LegacyTree.depth node = 0%nat ->
     (LegacyTree.x node' == LegacyTree.x node)%Q /\
     (LegacyTree.y node' == LegacyTree.y node)%Q).
Proof.
  intros Hi. split.
  - clear. induction nodes as [|n nodes IH]; simpl; [reflexivity|].
    rewrite IH. reflexivity.
  - exists (LegacyTree.perturbNode node).
    rewrite perturbNodes_lookup, Hi.
    pose proof (getRandomOffset_range
                  (LegacyTree.id (LegacyTree.data node)) "x") as [Hx1 Hx2].
    pose proof (getRandomOffset_range
                  (LegacyTree.id (LegacyTree.data node)) "y") as [Hy1 Hy2].
    unfold LegacyTree.perturbNode. simpl.
    set (ox := LegacyTree.getRandomOffset _ "x") in *.
    set (oy := LegacyTree.getRandomOffset _ "y") in *.
    repeat split; try reflexivity;
      try (destruct (Nat.eqb (LegacyTree.depth node) 0); lra).
    + rewrite H. simpl. lra.
    + rewrite H. simpl. lra.
Qed.

Lemma perturbNodes_bounded_witness :
  length (LegacyTree.perturbNodes [sampleNodeA; sampleNodeB]) =
    length [sampleNodeA; sampleNodeB] /\
  exists node',
    LegacyTree.perturbNodes [sampleNodeA; sampleNodeB] !! 0%nat =
      Some node' /\
    LegacyTree.data node' = LegacyTree.data sampleNodeA /\
    LegacyTree.depth node' = LegacyTree.depth sampleNodeA /\
    LegacyTree.parent node' = LegacyTree.parent sampleNodeA /\
    (LegacyTree.x sampleNodeA - 20 <= LegacyTree.x node'
       <= LegacyTree.x sampleNodeA + 20)%Q /\
    (LegacyTree.y sampleNodeA - 15 <= LegacyTree.y node'
       <= LegacyTree.y sampleNodeA + 15)%Q /\
    (LegacyTree.depth sampleNodeA = 0%nat ->
     (LegacyTree.x node' == LegacyTree.x sampleNodeA)%Q /\
     (LegacyTree.y node' == LegacyTree.y sampleNodeA)%Q).
Proof.
  apply (perturbNodes_bounded [sampleNodeA; sampleNodeB] 0 sampleNodeA).
  reflexivity.
Defined.

(** ** The separation callback: symmetry and lower bounds *)

(** X17: the separation does not depend on the order of the two nodes. *)
Theorem separation_symmetric (a b : LegacyTree.HierarchyPointNode) :
  (LegacyTree.separation a b == LegacyTree.separation b a)%Q.
Proof.
  unfold LegacyTree.separation. cbv zeta.
  destruct (decide (LegacyTree.parent a = LegacyTree.parent b)),
    (decide (LegacyTree.parent b = LegacyTree.parent a)); try congruence;
    destruct (LegacyTree.spouse (LegacyTree.data a)),
      (LegacyTree.spouse (LegacyTree.data b)); field.
Qed.

(** X18: with non-negative spouse-tree widths the separation is at least
    1.1, and at least 1.3 between nodes that do not share a parent. *)
Theorem separation_at_least (a b : LegacyTree.HierarchyPointNode) :
  (0 <= LegacyTree.orZero
          (LegacyTree.spouseTreeWidth (LegacyTree.data a)))%Q ->
  (0 <= LegacyTree.orZero
          (LegacyTree.spouseTreeWidth (LegacyTree.data b)))%Q ->
  (1.1 <= LegacyTree.separation a b)%Q /\
  (LegacyTree.parent a <> LegacyTree.parent b ->
   (1.3 <= LegacyTree.separation a b)%Q).
Proof.
  intros Ha Hb. unfold LegacyTree.separation. cbv zeta.
  set (wa := LegacyTree.orZero
               (LegacyTree.spouseTreeWidth (LegacyTree.data a))) in *.
  set (wb := LegacyTree.orZero
               (LegacyTree.spouseTreeWidth (LegacyTree.data b))) in *.
  unfold Qdiv. change (/ 270)%Q with (1 # 270)%Q.
  destruct (decide (LegacyTree.parent a = LegacyTree.parent b));
    destruct (LegacyTree.spouse (LegacyTree.data a)),
      (LegacyTree.spouse (LegacyTree.data b));
    (split; [|intros ?; try contradiction]); lra.
Qed.

Lemma separation_at_least_witness :
  (1.1 <= LegacyTree.separation sampleNodeA sampleNodeB)%Q /\
  (LegacyTree.parent sampleNodeA <> LegacyTree.parent sampleNodeB ->
   (1.3 <= LegacyTree.separation sampleNodeA sampleNodeB)%Q).
Proof.
  apply (separation_at_least sampleNodeA sampleNodeB); simpl; lra.
Defined.

(** ** toggleSpouse: toggles commute *)

Lemma elem_of_toggleSpouse (i j : string) (expanded : gset string) :
  j ∈ LegacyTree.toggleSpouse i expanded <->
  (j <> i /\ j ∈ expanded) \/ (j = i /\ i ∉ expanded).
Proof.
  unfold LegacyTree.toggleSpouse.
  destruct (decide (i ∈ expanded)), (decide (j = i)); set_solver.
Qed.

(** X19: toggling two spouses gives the same expansion set in either
    order. *)
Theorem toggleSpouse_commute (i j : string) (expanded : gset string) :
  LegacyTree.toggleSpouse i (LegacyTree.toggleSpouse j expanded) =
  LegacyTree.toggleSpouse j (LegacyTree.toggleSpouse i expanded).
Proof.
  apply set_eq. intros x. rewrite !elem_of_toggleSpouse.
  destruct (decide (x = i)), (decide (x = j)), (decide (i = j));
    naive_solver.
Qed.

(** ** transformData *)

Lemma fmap_inj_elem {A B} (f : A -> B) (l l' : list A) :
  (forall a, a ∈ l -> forall b, f a = f b -> a = b) ->
  f <$> l = f <$> l' -> l = l'.
Proof.
  revert l'. induction l as [|a l IH]; intros [|b l'] Hinj Heq;
    try discriminate; [reflexivity|].
  rewrite !fmap_cons in Heq. injection Heq as Hab Hl. f_equal.
  - apply Hinj; [left|exact Hab].
  - apply IH; [|exact Hl]. intros c Hc. apply Hinj. right. exact Hc.
Qed.

(** X20: [transformData] loses nothing: two family trees with the same
    render tree are the same. *)
Theorem transformData_injective (a b : FamilyMember) :
  transformData a = transformData b -> a = b.
Proof.
  revert b. induction a as [a IHs IHp] using FamilyMember_ind. intros b.
  destruct a as [i n y u r ps s], b as [i' n' y' u' r' ps' s'].
  simpl in IHs, IHp. simpl. intros Heq.
  injection Heq as Hi Hn Hy Hu Hr Hps Hs. subst. f_equal.
  - destruct ps as [l|], ps' as [l'|]; try discriminate; [|reflexivity].
    injection Hps as Hps. f_equal.
    apply (fmap_inj_elem transformData); [|exact Hps].
    intros c Hc. apply (IHp l c eq_refl Hc).
  - destruct s as [c|], s' as [c'|]; try discriminate; [|reflexivity].
    injection Hs as Hs. f_equal. apply (IHs c eq_refl), Hs.
Qed.

Lemma transformData_injective_witness : INITIAL_DATA = INITIAL_DATA.
Proof.
  apply (transformData_injective INITIAL_DATA INITIAL_DATA). reflexivity.
Defined.

(** ** The width of a spouse tree *)

Ltac width_bounds :=
  repeat match goal with
         | |- _ /\ _ => split
         | |- forall _, _ => intro
         | H : Some _ = Some _ |- _ => injection H as <- <-
         | H : None = Some _ |- _ => discriminate H
         | |- (Qmax _ _ <= _)%Q => apply Q.max_lub
         end;
  try lra.

Lemma widthStep_spec (bounds : option (Q * Q))
    (d : LegacyTree.HierarchyPointNode) :
  exists minX maxX,
    widthStep bounds d = Some (minX, maxX) /\
    (minX <= LegacyTree.x d)%Q /\ (reachRight d <= maxX)%Q /\
    (forall mn mx, bounds = Some (mn, mx) ->
       (minX <= mn)%Q /\ (mx <= maxX)%Q).
Proof.
  unfold widthStep, reachRight. cbv zeta.
  set (x := LegacyTree.x d).
  destruct bounds as [[mn mx]|].
  - pose proof (Q.le_min_l mn x). pose proof (Q.le_min_r mn x).
    pose proof (Q.le_max_l mx x). pose proof (Q.le_max_r mx x).
    destruct (truthyWidth _) as [w|].
    + pose proof (Q.le_max_l (Qmax mx x) (x + 220 + w)).
      pose proof (Q.le_max_r (Qmax mx x) (x + 220 + w)).
      eexists _, _. split; [reflexivity|]. width_bounds.
    + destruct (LegacyTree.spouse (LegacyTree.data d)).
      * pose proof (Q.le_max_l (Qmax mx x) (x + 220)).
        pose proof (Q.le_max_r (Qmax mx x) (x + 220)).
        eexists _, _. split; [reflexivity|]. width_bounds.
      * eexists _, _. split; [reflexivity|]. width_bounds.
  - destruct (truthyWidth _) as [w|].
    + pose proof (Q.le_max_l x (x + 220 + w)).
      pose proof (Q.le_max_r x (x + 220 + w)).
      eexists _, _. split; [reflexivity|]. width_bounds.
    + destruct (LegacyTree.spouse (LegacyTree.data d)).
      * pose proof (Q.le_max_l x (x + 220)).
        pose proof (Q.le_max_r x (x + 220)).
        eexists _, _. split; [reflexivity|]. width_bounds.
      * eexists _, _. split; [reflexivity|]. width_bounds.
Qed.

Lemma foldl_widthStep (nodes : list LegacyTree.HierarchyPointNode)
    (bounds : option (Q * Q)) :
  match foldl widthStep bounds nodes with
  | Some (minX, maxX) =>
      (forall d, d ∈ nodes ->
         (minX <= LegacyTree.x d)%Q /\ (reachRight d <= maxX)%Q) /\
      (forall mn mx, bounds = Some (mn, mx) ->
         (minX <= mn)%Q /\ (mx <= maxX)%Q)
  | None => nodes = [] /\ bounds = None
  end.
Proof.
  revert bounds. induction nodes as [|d nodes IH]; intros bounds.
  - simpl. destruct bounds as [[mn mx]|]; [|done]. split.
    + intros d Hd. inversion Hd.
    + intros ? ? [= <- <-]. split; lra.
  - simpl. destruct (widthStep_spec bounds d)
      as (m1 & M1 & Hstep & Hx & Hr & Hb).
    rewrite Hstep. specialize (IH (Some (m1, M1))).
    destruct (foldl widthStep (Some (m1, M1)) nodes) as [[m2 M2]|];
      [|destruct IH; discriminate].
    destruct IH as [Hall Hprev].
    destruct (Hprev m1 M1 eq_refl) as [Hm HM]. split.
    + intros a [->|Ha]%elem_of_cons; [split; lra|apply Hall, Ha].
    + intros mn mx Heq. destruct (Hb mn mx Heq). split; lra.
Qed.

(** X21: the width of a spouse tree spans all of it: from the [x] of any
    node to the right reach of any node (its [x], its spouse 220 further,
    its expanded spouse tree beyond that); in particular it is not
    negative.  With no node at all the width is 270. *)
Theorem totalWidth_covers (nodes : list LegacyTree.HierarchyPointNode)
    (a b : LegacyTree.HierarchyPointNode) :
  a ∈ nodes -> b ∈ nodes ->
  (reachRight b - LegacyTree.x a <= totalWidth nodes)%Q /\
  (0 <= totalWidth nodes)%Q /\
  totalWidth [] = 270%Q.
Proof.
  intros Ha Hb. unfold totalWidth.
  pose proof (foldl_widthStep nodes None) as H.
  destruct (foldl widthStep None nodes) as [[mn mx]|].
  - destruct H as [Hall _]. destruct (Hall a Ha) as [Ha1 Ha2].
    destruct (Hall b Hb) as [Hb1 Hb2].
    assert (LegacyTree.x a <= reachRight a)%Q.
    { unfold reachRight. destruct (truthyWidth _);
        [apply Q.le_max_l|].
      destruct (LegacyTree.spouse _); [apply Q.le_max_l|lra]. }
    repeat split; try reflexivity; lra.
  - destruct H as [-> _]. inversion Ha.
Qed.

Lemma totalWidth_covers_witness :
  (reachRight sampleNodeA - LegacyTree.x sampleNodeB <=
     totalWidth [sampleNodeA; sampleNodeB])%Q /\
  (0 <= totalWidth [sampleNodeA; sampleNodeB])%Q /\
  totalWidth [] = 270%Q.
Proof.
  apply (totalWidth_covers [sampleNodeA; sampleNodeB] sampleNodeB
           sampleNodeA).
  - apply list_elem_of_further, list_elem_of_here.
  - apply list_elem_of_here.
Defined.

(** ** The link paths *)

(** X22: the path of a link always runs from left to right.  When the
    target is strictly left of the source the path starts at the target and
    ends at the source; otherwise (the source is left of the target, or
    they are level) it starts at the source and ends at the target.  The
    first control point has the [x] of the start and the second the [x] of
    the end; they lie at the mean [y] of the two ends, shifted by the
    offset of the link in opposite directions. *)
Theorem generateWavyPath_left_to_right (originX originY : Q)
    (isMainTree : bool) (d : HierarchyPointLink) :
  let p := generateWavyPath originX originY isMainTree d in
  let s := (originX + LegacyTree.x (source d),
            originY + (if isMainTree then - LegacyTree.y (source d)
                       else LegacyTree.y (source d)))%Q in
  let t := (originX + LegacyTree.x (target d),
            originY + (if isMainTree then - LegacyTree.y (target d)
                       else LegacyTree.y (target d)))%Q in
  let midY := ((snd s + snd t) / 2)%Q in
  let controlOffset :=
    (LegacyTree.getRandomOffset
       (LegacyTree.id (LegacyTree.data (target d)) +:+
        LegacyTree.id (LegacyTree.data (source d))) "curve" * 30)%Q in
  (fst (c_moveTo p) <= fst (c_lineEnd p))%Q /\
  ((fst t < fst s)%Q ->
   c_moveTo p = t /\ c_lineEnd p = s /\
   c_control1 p = (fst t, midY - controlOffset)%Q /\
   c_control2 p = (fst s, midY + controlOffset)%Q) /\
  ((fst s <= fst t)%Q ->
   c_moveTo p = s /\ c_lineEnd p = t /\
   c_control1 p = (fst s, midY + controlOffset)%Q /\
   c_control2 p = (fst t, midY - controlOffset)%Q).
Proof.
  unfold generateWavyPath. cbv zeta.
  destruct (Qlt_le_dec _ _) as [Hlt|Hle]; cbn [fst snd c_moveTo c_lineEnd
    c_control1 c_control2].
  - split; [apply Qlt_le_weak, Hlt|]. split.
    + intros _. repeat split; reflexivity.
    + intros Hle. exfalso. apply (Qlt_not_le _ _ Hlt Hle).
  - split; [exact Hle|]. split.
    + intros Hlt. exfalso. apply (Qlt_not_le _ _ Hlt Hle).
    + intros _. repeat split; reflexivity.
Qed.

(** X23: for a direction of -1 or 1, the path that links a node to its
    spouse runs from left to right, and the spouse is placed between 210
    and 230 away from the node on the side of the direction, with a
    vertical offset [y] such that [-10 <= y < 10]. *)
Theorem pathD_left_to_right (direction : Z)
    (spouse : LegacyTree.D3MemberWithLayout) :
  direction = (-1)%Z \/ direction = 1%Z ->
  (fst (q_moveTo (pathD direction spouse)) <
     fst (q_lineEnd (pathD direction spouse)))%Q /\
  (210 <= inject_Z direction * spouseOffset direction spouse)%Q /\
  (inject_Z direction * spouseOffset direction spouse <= 230)%Q /\
  (-10 <= spouseOffsetY spouse)%Q /\ (spouseOffsetY spouse < 10)%Q.
Proof.
  pose proof (getRandomOffset_range (LegacyTree.id spouse) "sx") as [Hx1 Hx2].
  pose proof (getRandomOffset_range (LegacyTree.id spouse) "sy") as [Hy1 Hy2].
  unfold pathD, spouseOffset, spouseOffsetY. cbv zeta.
  set (rx := LegacyTree.getRandomOffset _ "sx") in *.
  set (ry := LegacyTree.getRandomOffset _ "sy") in *.
  intros [-> | ->]; simpl; unfold inject_Z; repeat split; lra.
Qed.

Lemma pathD_left_to_right_witness :
  (fst (q_moveTo (pathD (-1) (sampleMember "s1" None))) <
     fst (q_lineEnd (pathD (-1) (sampleMember "s1" None))))%Q /\
  (210 <= inject_Z (-1) * spouseOffset (-1) (sampleMember "s1" None))%Q /\
  (inject_Z (-1) * spouseOffset (-1) (sampleMember "s1" None) <= 230)%Q /\
  (-10 <= spouseOffsetY (sampleMember "s1" None))%Q /\
  (spouseOffsetY (sampleMember "s1" None) < 10)%Q.
Proof.
  apply (pathD_left_to_right (-1) (sampleMember "s1" None)).
  left. reflexivity.
Defined.

(** X24: in the main tree the spouse goes outward: the direction is -1 for
    a node left of the axis and 1 otherwise, so the spouse of a node left
    of the axis lies more than 210 further left, and the spouse of any
    other node at least 210 further right. *)
Theorem spouseDirection_outward (parentDirection : Z)
    (d : LegacyTree.HierarchyPointNode)
    (spouse : LegacyTree.D3MemberWithLayout) :
  let direction := spouseDirection true parentDirection d in
  (direction = (-1)%Z \/ direction = 1%Z) /\
  ((LegacyTree.x d < 0)%Q ->
   (LegacyTree.x d + spouseOffset direction spouse < LegacyTree.x d - 210)%Q)
  /\
  ((0 <= LegacyTree.x d)%Q ->
   (LegacyTree.x d + 210 <= LegacyTree.x d + spouseOffset direction spouse)%Q).
Proof.
  pose proof (getRandomOffset_range (LegacyTree.id spouse) "sx") as [Hx1 Hx2].
  unfold spouseDirection, spouseOffset. cbv zeta.
  set (rx := LegacyTree.getRandomOffset _ "sx") in *.
  destruct (Qlt_le_dec (LegacyTree.x d) 0) as [Hlt|Hle]; simpl;
    unfold inject_Z; repeat split; auto; intros; lra.
Qed.

(** ** Deletion through the handler never cascades *)

Lemma leaf_allIds (n : FamilyMember) : outgoing n = 0%nat -> allIds n = [id n].
Proof.
  unfold outgoing. rewrite allIds_eq.
  destruct (spouse n); [lia|]. destruct (parents n) as [[|p ps]|]; simpl;
    (reflexivity || lia).
Qed.

Lemma omap_pruned_ids (targetId : string) (ps : list FamilyMember) :
  (forall q, q ∈ ps ->
     match pruned targetId q with Some q' => allIds q' | None => [] end =
     filter (fun x => x <> targetId) (allIds q)) ->
  omap (pruned targetId) ps ≫= allIds =
  filter (fun x => x <> targetId) (ps ≫= allIds).
Proof.
  induction ps as [|q ps IH]; intros H; [reflexivity|].
  rewrite bind_cons, filter_app, <- (H q) by left.
  rewrite <- IH by (intros a Ha; apply H; right; exact Ha). simpl.
  destruct (pruned targetId q); [rewrite bind_cons|]; reflexivity.
Qed.

Lemma pruned_of_leaves (targetId : string) (t : FamilyMember) :
  (forall path n, nodeAt t path = Some n -> id n = targetId ->
     outgoing n = 0%nat) ->
  match pruned targetId t with Some t' => allIds t' | None => [] end =
  filter (fun x => x <> targetId) (allIds t).
Proof.
  induction t as [t IHs IHp] using FamilyMember_ind. intros Hleaf.
  rewrite pruned_eq. destruct (hasId targetId t) eqn:Hid.
  - apply hasId_true in Hid.
    rewrite (leaf_allIds t (Hleaf [] t eq_refl Hid)).
    rewrite filter_cons_False by (intros H; apply H, Hid). reflexivity.
  - apply hasId_false in Hid.
    rewrite allIds_withLinks, (allIds_eq t).
    rewrite filter_cons_True by exact Hid. rewrite filter_app.
    f_equal. f_equal.
    + destruct (spouse t) as [s|] eqn:Es; [|reflexivity].
      apply (IHs s eq_refl). intros path n Hn.
      apply (Hleaf (ViaSpouse :: path)). simpl. rewrite Es. exact Hn.
    + destruct (parents t) as [ps|] eqn:Ep; [|reflexivity].
      apply omap_pruned_ids. intros q Hq.
      apply (IHp ps q eq_refl Hq). intros path n Hn.
      apply list_elem_of_lookup in Hq as [k Hk].
      apply (Hleaf (ViaParent k :: path)). simpl. rewrite Ep. simpl.
      rewrite Hk. exact Hn.
Qed.

(** X25: on a tree with unique ids, a deletion that [handleDeleteMember]
    lets through removes one member at most: the ids of the stored tree are
    the ids of the old tree without the deleted id, in the same order.  The
    guard lets only leaves through, so no ancestor line is ever removed
    with a member. *)
Theorem handleDeleteMember_no_cascade (st : AppState) (targetId : string)
    (w : World) :
  uniqueIds (data st) -> targetId <> id (data st) ->
  (calculateDegree (data st) targetId <= 1)%nat ->
  allIds (data (fst (handleDeleteMember targetId st w))) =
  filter (fun x => x <> targetId) (allIds (data st)).
Proof.
  intros Hu Hroot Hdeg.
  assert (forall path n, nodeAt (data st) path = Some n -> id n = targetId ->
            outgoing n = 0%nat) as Hleaf.
  { intros path n Hn Hid.
    pose proof (traverse_of_member (data st) n path Hu Hn) as Hd.
    rewrite Hid in Hd. unfold calculateDegree in Hdeg.
    destruct path as [|e path].
    - injection Hn as <-. congruence.
    - lia. }
  pose proof (pruned_of_leaves targetId (data st) Hleaf) as Hids.
  unfold handleDeleteMember.
  rewrite bool_decide_eq_false_2 by exact Hroot.
  apply Nat.ltb_ge in Hdeg. rewrite Hdeg. rewrite run_bind.
  unfold pruned in Hids.
  destruct (resultOf (data st) (deleteNode (data st) targetId)) as [t'|] eqn:E.
  - exact Hids.
  - pose proof (pruned_eq targetId (data st)) as Heq. unfold pruned in Heq.
    rewrite E, (proj2 (hasId_false targetId (data st))) in Heq by congruence.
    discriminate.
Qed.

Lemma handleDeleteMember_no_cascade_witness :
  allIds (data (fst (handleDeleteMember "p2" (seedState None) sampleWorld))) =
  filter (fun x => x <> "p2") (allIds (data (seedState None))).
Proof.
  apply (handleDeleteMember_no_cascade (seedState None) "p2" sampleWorld).
  - apply (bool_decide_unpack _). vm_compute. exact I.
  - simpl. discriminate.
  - vm_compute. lia.
Defined.
